(** * shelldoc: the shell execution engine and the interaction extractor

    A shallow embedding of [pkg/shell/shell.go] and of the coordinator loop
    [performInteractions] of package [run], together with the parts of the
    packages [tokenizer] and [junitxml] the coordinator relies on.  The
    progress lines the coordinator prints, elapsed times and the properties
    of a test suite are left out; of what is printed only the summary line
    of a run is kept.

    Conventions.
    - Go strings are byte strings: [string] with 8-bit [ascii] characters.
    - A nil slice and an empty slice are both the empty list.
    - [int] is 64 bits wide; [time.Duration] is a signed count of
      nanoseconds, a [Z]; the clock of the model ticks in nanoseconds.
    - The subprocess is the environment: what it prints, and when, is an
      input of the model ([shell.Stdout]). *)

From Stdlib Require Import ZArith List Ascii String Bool Lia.
From stdpp Require Import base option list gmap strings.

Local Open Scope Z_scope.

(** ** Byte-string helpers shared by the packages *)

Module strutil.

Definition chr (n : nat) : string := String (ascii_of_nat n) EmptyString.

Definition nl : string := chr 10.
Definition dquote : string := chr 34.

(** [strings.HasPrefix] and the slice [s\[len(p):\]] in one step. *)
Fixpoint strip_prefix (p s : string) : option string :=
  match p with
  | EmptyString => Some s
  | String a p' =>
      match s with
      | EmptyString => None
      | String b s' => if Ascii.eqb a b then strip_prefix p' s' else None
      end
  end.

Definition HasPrefix (s p : string) : bool :=
  match strip_prefix p s with Some _ => true | None => false end.

Fixpoint contains_char (c : ascii) (s : string) : bool :=
  match s with
  | EmptyString => false
  | String a s' => Ascii.eqb a c || contains_char c s'
  end.

Definition bytes (l : list nat) : string :=
  fold_right (fun n s => String (ascii_of_nat n) s) EmptyString l.

(** The UTF-8 encodings of the runes for which [unicode.IsSpace] holds:
    the six ASCII ones, U+0085, U+00A0, U+1680, U+2000..U+200A, U+2028,
    U+2029, U+202F, U+205F and U+3000. *)
Definition white_space : list string :=
  map bytes
    [ [9]; [10]; [11]; [12]; [13]; [32];
      [194; 133]; [194; 160]; [225; 154; 128];
      [226; 128; 128]; [226; 128; 129]; [226; 128; 130]; [226; 128; 131];
      [226; 128; 132]; [226; 128; 133]; [226; 128; 134]; [226; 128; 135];
      [226; 128; 136]; [226; 128; 137]; [226; 128; 138];
      [226; 128; 168]; [226; 128; 169]; [226; 128; 175];
      [226; 129; 159]; [227; 128; 128] ]%nat.

Fixpoint strip_any (ws : list string) (s : string) : option string :=
  match ws with
  | [] => None
  | w :: ws' =>
      match strip_prefix w s with
      | Some r => Some r
      | None => strip_any ws' s
      end
  end.

(** [strings.TrimLeftFunc(s, unicode.IsSpace)]: runes are dropped from the
    front while they are white space.  [fuel] bounds the number of runes. *)
Fixpoint trim_left (ws : list string) (fuel : nat) (s : string) : string :=
  match fuel with
  | O => s
  | S fuel' =>
      match strip_any ws s with
      | Some r => trim_left ws fuel' r
      | None => s
      end
  end.

Definition TrimLeftSpace (s : string) : string :=
  trim_left white_space (String.length s) s.

(** Trimming at the end is trimming the reversed string by the reversed
    encodings: the last rune of [s] is white space exactly when one of the
    encodings is a suffix of [s]. *)
Definition TrimRightSpace (s : string) : string :=
  String.rev (trim_left (map String.rev white_space) (String.length s) (String.rev s)).

(** [strings.TrimSpace]. *)
Definition TrimSpace (s : string) : string := TrimRightSpace (TrimLeftSpace s).

Definition is_digit (c : ascii) : bool :=
  let n := nat_of_ascii c in (48 <=? n)%nat && (n <=? 57)%nat.

Fixpoint parse_digits (acc : Z) (s : string) : option Z :=
  match s with
  | EmptyString => Some acc
  | String c s' =>
      if is_digit c
      then parse_digits (acc * 10 + Z.of_nat (nat_of_ascii c - 48)) s'
      else None
  end.

Definition parse_unsigned (s : string) : option Z :=
  match s with
  | EmptyString => None
  | _ => parse_digits 0 s
  end.

Definition min_int : Z := - 2 ^ 63.
Definition max_int : Z := 2 ^ 63 - 1.

(** [strconv.Atoi]: an optional sign, then at least one decimal digit, and
    a value that fits [int].  [None] stands for a non-nil error (wrong
    syntax or out of range). *)
Definition Atoi (s : string) : option Z :=
  let signed :=
    match s with
    | String "-" s' => (fun z => - z, s')
    | String "+" s' => (fun z => z, s')
    | _ => (fun z => z, s)
    end in
  match parse_unsigned (snd signed) with
  | None => None
  | Some n =>
      let v := fst signed n in
      if (min_int <=? v) && (v <=? max_int) then Some v else None
  end.

End strutil.

(** ** Package shell *)

Module shell.
Import strutil.

Inductive error : Type :=
| ErrTimeout                       (* "command execution timed out" *)
| ErrCancelled                     (* "command execution cancelled" *)
| ErrExitCode (token : string).    (* "unable to read exit code for shell command: ..." *)

#[global] Instance error_eq_dec : EqDecision error.
Proof. solve_decision. Defined.

(** What the scanner on [shell.stdout] will yield.  [Line d text rest]: the
    next line is [text] and it is complete [d] ticks after the previous
    one (or after the scan started).  [EOF d]: after [d] more ticks
    [scanner.Scan] returns false (end of input, a read error or an
    over-long line).  [Blocked]: the read never returns.  Lines are taken
    to reach the scanner one at a time: the scanner of a call consumes
    nothing beyond the last line it returns (a [bufio.Scanner] may read
    ahead what is in the pipe already; that is outside the model). *)
Inductive Stdout : Type :=
| Line (delay : N) (text : string) (rest : Stdout)
| EOF (delay : N)
| Blocked.

(** How the process was asked to end. *)
Inductive Termination : Type :=
| Running
| ExitRequested      (* [Exit]: "exit\n" written, then [cmd.Wait] *)
| Killed.            (* [Kill]: [cmd.Process.Kill] *)

(** [Shell]: the writes to [stdin] so far (errors of [io.WriteString] are
    dropped by the source), the pending [stdout], the state of [cmd], and
    whether an abandoned scanning goroutine still reads from [stdout]. *)
Record Shell : Type := mkShell {
  stdin : list string;
  stdout : Stdout;
  cmd : Termination;
  abandoned_scan : bool
}.

Record commandResult : Type := mkResult {
  output : list string;
  rc : Z;
  err : option error
}.

Definition beginMarker : string :=
  ">>>>>>>>>>SHELLDOC_MARKER>>>>>>>>>>>>>>>>>>>>>>>>>>>>>>".
Definition endMarker : string := "<<<<<<<<<<SHELLDOC_MARKER".

(** [beginRx.MatchString] for [^beginMarker$]: no character of the marker
    is special in a regular expression, and without the [m] flag [^] and
    [$] are the two ends of the text. *)
Definition beginRx_MatchString (line : string) : bool :=
  String.eqb line beginMarker.

(** [endRx.FindStringSubmatch] for [^endMarker (.+)$]: [Some token] is the
    two-element match (the group is the rest of the line), [None] the nil
    one.  [.] does not match a newline. *)
Definition endRx_FindStringSubmatch (line : string) : option string :=
  match strip_prefix (endMarker +:+ " ") line with
  | Some token =>
      match token with
      | EmptyString => None
      | _ => if contains_char "010"%char token then None else Some token
      end
  | None => None
  end.

(** The loop of the scanning goroutine.  The result is what is sent on
    [resultCh], after how many ticks, and what is left of the stream;
    [None] when nothing is ever sent. *)
Fixpoint scan_loop (beginFound : bool) (output : list string) (elapsed : N)
    (s : Stdout) : option (N * commandResult * Stdout) :=
  match s with
  | Blocked => None
  | EOF d => Some ((elapsed + d)%N, mkResult output 0 None, EOF 0)
  | Line d line rest =>
      let t := (elapsed + d)%N in
      if beginRx_MatchString line then scan_loop true output t rest
      else if negb beginFound then scan_loop beginFound output t rest
      else
        match endRx_FindStringSubmatch line with
        | Some token =>
            match Atoi token with
            | None => Some (t, mkResult [] (-1) (Some (ErrExitCode token)), rest)
            | Some value => Some (t, mkResult output value None, rest)
            end
        | None => scan_loop beginFound (output ++ [line]) t rest
        end
  end.

Definition scan (s : Stdout) : option (N * commandResult * Stdout) :=
  scan_loop false [] 0%N s.

(** The two [io.WriteString] calls. *)
Definition begin_statement : string :=
  "echo " +:+ dquote +:+ beginMarker +:+ dquote +:+ nl.

Definition command_statement (command : string) : string :=
  TrimSpace command +:+ "; echo " +:+ dquote +:+ endMarker +:+ " $?" +:+ dquote +:+ nl.

(** What the two writes leave in the pipe to the shell.  Here they are
    taken to be done at once, as section 5 of the specification takes
    them; in the source they are synchronous writes to a pipe, made before
    the [select], and they block for as long as the pipe is full
    ([ExecuteCommand_written] below has the time they take). *)
Definition send (sh : Shell) (command : string) : Shell :=
  mkShell (stdin sh ++ [begin_statement; command_statement command])
          (stdout sh) (cmd sh) (abandoned_scan sh).

(** [context.Context], as far as the source looks at it: the tick at which
    [ctx.Done()] is closed, if ever. *)
Record Context : Type := mkContext { doneAt : option N }.

Definition Background : Context := mkContext None.

Definition Done (ctx : Context) (now : N) : bool :=
  match doneAt ctx with
  | Some c => (c <=? now)%N
  | None => false
  end.

(** The cases of the [select] statements. *)
Inductive Case : Type :=
| CaseResult (r : commandResult) (rest : Stdout)
| CaseTimeout
| CaseDone.

(** Each case with the tick at which its channel becomes ready, in the
    order of the source.  The timer case exists only when [timeout > 0]. *)
Definition cases (ctx : Context) (now : N) (timeout : Z)
    (scanned : option (N * commandResult * Stdout)) : list (N * Case) :=
  match scanned with
  | Some (d, r, rest) => [((now + d)%N, CaseResult r rest)]
  | None => []
  end ++
  (if 0 <? timeout then [((now + Z.to_N timeout)%N, CaseTimeout)] else []) ++
  match doneAt ctx with
  | Some c => [(N.max c now, CaseDone)]
  | None => []
  end.

Definition earliest (cs : list (N * Case)) : option N :=
  match cs with
  | [] => None
  | (t, _) :: cs' => Some (fold_right (fun c m => N.min (fst c) m) t cs')
  end.

(** [select]: blocks until the first case is ready; of several cases ready
    at once one is taken at random, here by the number [pick]. *)
Definition select (pick : nat) (cs : list (N * Case)) : option (N * Case) :=
  match earliest cs with
  | None => None
  | Some t =>
      let ready := filter (fun c => fst c = t) cs in
      ready !! (pick mod length ready)%nat
  end.

(** [ExecuteCommand], called at tick [now].  [None]: the call never
    returns.  Otherwise the tick of the return, the session, and the three
    values returned.  The writes are those of [send], done at once.  The
    stream of the session returned is what follows the end line: that is
    what a later call finds when nothing of it had reached the pipe as the
    end line was read ([pending] below), for each call makes a scanner of
    its own, and what a scanner has read ahead is lost with it.  After a
    timeout or a cancellation the goroutine of the call keeps reading
    ([abandoned_scan]); what a later call would then find is not
    described, the stream is left as it was. *)
Definition ExecuteCommand (ctx : Context) (pick : nat) (now : N) (sh : Shell)
    (command : string) (timeout : Z)
    : option (N * Shell * (list string * Z * option error)) :=
  let sh1 := send sh command in
  match select pick (cases ctx now timeout (scan (stdout sh1))) with
  | None => None
  | Some (t, CaseResult r rest) =>
      Some (t, mkShell (stdin sh1) rest (cmd sh1) (abandoned_scan sh1),
            (output r, rc r, err r))
  | Some (t, CaseTimeout) =>
      Some (t, mkShell (stdin sh1) (stdout sh1) (cmd sh1) true,
            ([], -1, Some ErrTimeout))
  | Some (t, CaseDone) =>
      Some (t, mkShell (stdin sh1) (stdout sh1) (cmd sh1) true,
            ([], -1, Some ErrCancelled))
  end.

(** The part of [ExecuteCommand] that follows the two writes, lines 88 to
    142: the scanning goroutine and the [select], begun at tick [now] on
    the session [sh1] as the writes left it. *)
Definition await (ctx : Context) (pick : nat) (now : N) (sh1 : Shell) (timeout : Z)
    : option (N * Shell * (list string * Z * option error)) :=
  match select pick (cases ctx now timeout (scan (stdout sh1))) with
  | None => None
  | Some (t, CaseResult r rest) =>
      Some (t, mkShell (stdin sh1) rest (cmd sh1) (abandoned_scan sh1),
            (output r, rc r, err r))
  | Some (t, CaseTimeout) =>
      Some (t, mkShell (stdin sh1) (stdout sh1) (cmd sh1) true,
            ([], -1, Some ErrTimeout))
  | Some (t, CaseDone) =>
      Some (t, mkShell (stdin sh1) (stdout sh1) (cmd sh1) true,
            ([], -1, Some ErrCancelled))
  end.

(** [ExecuteCommand] with the time its two writes take.  [written] is
    [Some w] when both [io.WriteString] calls have returned [w] ticks
    after the call, and [None] when they block for ever (the pipe to the
    shell is full and the shell does not read it).  The timer and the
    context are looked at in the [select] only, which comes after the
    writes; the delays of the stream count from the start of the scan. *)
Definition ExecuteCommand_written (written : option N) (ctx : Context) (pick : nat)
    (now : N) (sh : Shell) (command : string) (timeout : Z)
    : option (N * Shell * (list string * Z * option error)) :=
  match written with
  | None => None
  | Some w => await ctx pick (now + w)%N (send sh command) timeout
  end.

(** Nothing of the stream [s] has reached the pipe yet: its next line, if
    there is one, comes whole and strictly later. *)
Definition pending (s : Stdout) : bool :=
  match s with
  | Line d _ _ => (0 <? d)%N
  | EOF _ => true
  | Blocked => true
  end.

(** Notions for the statements about the stream.  A line is a framing
    marker when one of the two patterns matches it. *)
Definition is_marker (line : string) : bool :=
  beginRx_MatchString line || bool_decide (is_Some (endRx_FindStringSubmatch line)).

(** [feed ls s]: the lines [ls], each with its delay, and then [s]. *)
Fixpoint feed (ls : list (N * string)) (s : Stdout) : Stdout :=
  match ls with
  | [] => s
  | (d, text) :: ls' => Line d text (feed ls' s)
  end.

Definition total_delay (ls : list (N * string)) : N :=
  fold_right (fun l n => (fst l + n)%N) 0%N ls.

(** [Exit] and [Kill]. *)
Definition Exit (sh : Shell) : Shell :=
  mkShell (stdin sh ++ ["exit" +:+ nl]) (stdout sh) ExitRequested (abandoned_scan sh).

Definition Kill (sh : Shell) : Shell :=
  mkShell (stdin sh) (stdout sh) Killed (abandoned_scan sh).

(** A framed answer in front of the stream [s]: leftover lines, the begin
    marker, the lines of the body, and the end line. *)
Definition answer (pre : list (N * string)) (d_begin : N) (body : list (N * string))
    (d_end : N) (end_line : string) (s : Stdout) : Stdout :=
  feed pre (Line d_begin beginMarker (feed body (Line d_end end_line s))).

(** The result of a scan, [k] ticks later. *)
Definition delayed (k : N) (x : N * commandResult * Stdout) : N * commandResult * Stdout :=
  ((k + fst (fst x))%N, snd (fst x), snd x).

(** The lines of a stream, in their order. *)
Fixpoint stream_lines (s : Stdout) : list string :=
  match s with
  | Line _ text rest => text :: stream_lines rest
  | EOF _ => []
  | Blocked => []
  end.

(** What [DetectShell] asks of the host: the value of [$SHELL] (empty when
    it is not set) and the outcome of [os.Stat] on a path: no error, an
    error for which [os.IsNotExist] holds, or another error. *)
Inductive StatResult : Type :=
| StatOk
| StatNotExist
| StatOtherError.

Record Host : Type := mkHost {
  SHELL : string;
  Stat : string -> StatResult
}.

Inductive DetectError : Type :=
| ErrNoShell                          (* "no shell specified and no $SHELL variable set" *)
| ErrShellNotExist (path : string).   (* "the selected shell does not exist: ..." *)

(** [DetectShell]. *)
Definition DetectShell (host : Host) (selected : string) : string + DetectError :=
  let chosen :=
    if (0 <? String.length selected)%nat then Some selected
    else if (0 <? String.length (SHELL host))%nat then Some (SHELL host)
    else None in
  match chosen with
  | None => inr ErrNoShell
  | Some path =>
      match Stat host path with
      | StatNotExist => inr (ErrShellNotExist path)
      | _ => inl path
      end
  end.

End shell.

(** ** Package tokenizer

    [interaction.go] and the code-block visitor of this package are not in
    the sources at hand: only their tests are.  What follows is modelled
    from the specification and from those tests. *)

Module tokenizer.
Import strutil.

(** Modelled from the spec: the result states of an [Interaction]
    ([NewInteraction], [ResultExecutionError], [ResultMatch],
    [ResultRegexMatch], [ResultMismatch], [ResultError]); the names are
    those of [TestInteractionResult]. *)
Inductive ResultState : Type :=
| NewInteraction
| ResultExecutionError
| ResultMatch
| ResultRegexMatch
| ResultMismatch
| ResultError.

#[global] Instance ResultState_eq_dec : EqDecision ResultState.
Proof. solve_decision. Defined.

(** Modelled from the spec: the [Interaction] record of section 3, with the
    field names the tests use. *)
Record Interaction : Type := mkInteraction {
  Cmd : string;
  Caption : string;
  Language : string;
  Attributes : gmap string string;
  Response : list string;
  Output : list string;
  ExitCode : Z;
  ResultCode : ResultState
}.

(** Modelled from the spec: [New(caption)], a fresh interaction. *)
Definition New (caption : string) : Interaction :=
  mkInteraction EmptyString caption EmptyString ∅ [] [] 0 NewInteraction.

(** Modelled from the spec: [HasFailure], the table of
    [TestInteractionHasFailure]. *)
Definition HasFailure (i : Interaction) : bool :=
  match ResultCode i with
  | ResultMismatch | ResultError => true
  | _ => false
  end.

(** Modelled from the spec: [Result], the table of [TestInteractionResult]. *)
Definition Result (i : Interaction) : string :=
  match ResultCode i with
  | NewInteraction => "not executed"
  | ResultExecutionError => "ERROR (result not evaluated)"
  | ResultMatch =>
      match Response i with
      | [] => "PASS (execution successful)"
      | _ => "PASS (match)"
      end
  | ResultRegexMatch => "PASS (regex match)"
  | ResultMismatch => "FAIL (mismatch)"
  | ResultError => "FAIL (execution failed)"
  end.

Definition ellipsis : string := "...".

(** Modelled from the spec: [evaluateResponse], the response matcher of
    section 4.4 without the regex policy.  The sequences are compared line
    by line; an expected line [...] accepts whatever is left of the actual
    output. *)
Fixpoint evaluateResponse (expected actual : list string) : bool :=
  match expected with
  | [] => match actual with [] => true | _ :: _ => false end
  | e :: expected' =>
      if String.eqb e ellipsis then true
      else
        match actual with
        | [] => false
        | a :: actual' => String.eqb e a && evaluateResponse expected' actual'
        end
  end.

(** Modelled from the spec: the lines of a code block's literal.  A final
    newline ends the last line; it does not start an empty one. *)
Fixpoint split_lines (cur : string) (s : string) : list string :=
  match s with
  | EmptyString =>
      match cur with
      | EmptyString => []
      | _ => [String.rev cur]
      end
  | String c s' =>
      if Ascii.eqb c "010"%char then String.rev cur :: split_lines EmptyString s'
      else split_lines (String c cur) s'
  end.

Definition lines (literal : string) : list string := split_lines EmptyString literal.

(** Modelled from the spec: a line that begins with one of the prompts
    ["$ "] and ["> "] carries a command, the trimmed text after the
    prompt. *)
Definition prompt (line : string) : option string :=
  match strip_prefix "$ " line with
  | Some text => Some (TrimSpace text)
  | None =>
      match strip_prefix "> " line with
      | Some text => Some (TrimSpace text)
      | None => None
      end
  end.

Definition flush (current : option Interaction) : list Interaction :=
  match current with
  | Some i => [i]
  | None => []
  end.

Definition add_response (i : Interaction) (line : string) : Interaction :=
  mkInteraction (Cmd i) (Caption i) (Language i) (Attributes i)
    (Response i ++ [line]) (Output i) (ExitCode i) (ResultCode i).

Definition start_interaction (caption language : string)
    (attributes : gmap string string) (command : string) : Interaction :=
  mkInteraction command caption language attributes [] [] 0 NewInteraction.

(** Modelled from the spec: section 4.1, steps 2 to 4 and 6.  [current] is
    the interaction being collected, if a prompt has been seen. *)
Fixpoint collect (caption language : string) (attributes : gmap string string)
    (current : option Interaction) (ls : list string) : list Interaction :=
  match ls with
  | [] => flush current
  | l :: ls' =>
      match prompt l with
      | Some command =>
          flush current ++
          collect caption language attributes
            (Some (start_interaction caption language attributes command)) ls'
      | None =>
          match current with
          | Some i => collect caption language attributes (Some (add_response i l)) ls'
          | None => collect caption language attributes None ls'
          end
      end
  end.

(** [strings.Fields] on ASCII white space. *)
Definition is_space (c : ascii) : bool :=
  let n := nat_of_ascii c in ((9 <=? n) && (n <=? 13) || (n =? 32))%nat.

Fixpoint fields_go (cur : string) (s : string) : list string :=
  match s with
  | EmptyString =>
      match cur with
      | EmptyString => []
      | _ => [String.rev cur]
      end
  | String c s' =>
      if is_space c
      then match cur with
           | EmptyString => fields_go EmptyString s'
           | _ => String.rev cur :: fields_go EmptyString s'
           end
      else fields_go (String c cur) s'
  end.

Definition Fields (s : string) : list string := fields_go EmptyString s.

(** The text before and after the first occurrence of [c]. *)
Fixpoint cut (c : ascii) (s : string) : option (string * string) :=
  match s with
  | EmptyString => None
  | String a s' =>
      if Ascii.eqb a c then Some (EmptyString, s')
      else
        match cut c s' with
        | Some (before, after) => Some (String a before, after)
        | None => None
        end
  end.

(** Modelled from the spec: the recognized namespace prefix; the keys of
    the tests begin with it. *)
Definition shelldocPrefix : string := "shelldoc".

(** A token [key=value] or a bare [key]. *)
Definition key_value (token : string) : string * string :=
  match cut "="%char token with
  | Some kv => kv
  | None => (token, EmptyString)
  end.

Definition add_attribute (m : gmap string string) (token : string) : gmap string string :=
  let kv := key_value token in
  if HasPrefix (fst kv) shelldocPrefix then <[fst kv := snd kv]> m else m.

Definition parse_attributes (body : string) : gmap string string :=
  fold_left add_attribute (Fields body) ∅.

Definition first_word (s : string) : string :=
  match Fields s with
  | w :: _ => w
  | [] => EmptyString
  end.

(** The text in front of a closing brace that ends [s]. *)
Definition strip_closing_brace (s : string) : option string :=
  match String.rev s with
  | String "}" r => Some (String.rev r)
  | _ => None
  end.

(** Modelled from the spec: [parseCodeBlockInfoString], section 4.1 step 5
    and the table of [TestParseCodeBlockInfoString].  The language and the
    attributes are read from an info string with a brace-delimited suffix
    [language {tokens}]; by the test case "language only" an info string
    without the suffix gives the empty language and no attribute. *)
Definition parseCodeBlockInfoString (infostring : string) : string * gmap string string :=
  match cut "{"%char infostring with
  | Some (head, tail) =>
      match strip_closing_brace tail with
      | Some body => (first_word head, parse_attributes body)
      | None => (EmptyString, ∅)
      end
  | None => (EmptyString, ∅)
  end.

(** Modelled from the spec: the interactions of one code block, given its
    literal and its info string (empty for an indented block). *)
Definition codeBlock (caption literal infostring : string) : list Interaction :=
  let la := parseCodeBlockInfoString infostring in
  collect caption (fst la) (snd la) None (lines literal).

(** Notions for the statements about the extractor. *)

(** A prompt line with its command, and the response lines under it. *)
Record Exchange : Type := mkExchange {
  prompt_line : string;
  command : string;
  responses : list string
}.

Definition well_formed (x : Exchange) : Prop :=
  prompt (prompt_line x) = Some (command x) /\
  Forall (fun l => prompt l = None) (responses x).

Definition exchange_lines (x : Exchange) : list string :=
  prompt_line x :: responses x.

Definition extracted (caption language : string) (attributes : gmap string string)
    (x : Exchange) : Interaction :=
  mkInteraction (command x) caption language attributes (responses x) [] 0 NewInteraction.

(** The value the last token with key [k] gives, if there is one. *)
Definition last_value (k : string) (kvs : list (string * string)) : option string :=
  snd <$> last (filter (fun kv => fst kv = k) kvs).

(** Every character of [s] passes the test [p]. *)
Fixpoint all_chars (p : ascii -> bool) (s : string) : bool :=
  match s with
  | EmptyString => true
  | String c s' => p c && all_chars p s'
  end.

(** A word: not empty, without white space and without an opening brace. *)
Definition is_word (s : string) : bool :=
  negb (String.eqb s EmptyString) &&
  all_chars (fun c => negb (is_space c) && negb (Ascii.eqb c "{")) s.

(** An info string has a brace-delimited suffix when it holds an opening
    brace and its last character is a closing brace. *)
Definition has_brace_suffix (infostring : string) : bool :=
  contains_char "{" infostring &&
  match String.rev infostring with
  | String "}" _ => true
  | _ => false
  end.

End tokenizer.

(** ** Package junitxml

    Only the writer and the tests of this package are in the sources at
    hand. *)

Module junitxml.

(** Modelled from the spec: [JUnitFailure] and [JUnitError], with the three
    fields that [TestRegisterFailure] and [TestRegisterError] read. *)
Record JUnitMessage (C : Type) : Type := mkMessage {
  Type_ : string;
  Message : string;
  Contents : C
}.
Arguments mkMessage {C} _ _ _.
Arguments Type_ {C} _.
Arguments Message {C} _.
Arguments Contents {C} _.

(** Modelled from the spec: a test case, with the fields of the tests of
    the package.  The contents of an error is kept as the error value
    rather than as its text; elapsed times are left out. *)
Record JUnitTestCase : Type := mkTestCase {
  Classname : string;
  Name : string;
  Failure : option (JUnitMessage string);
  Error : option (JUnitMessage shell.error)
}.

(** Modelled from the spec: a test suite, with the counters and the cases
    of [TestOneTestSuite]; properties and times are left out. *)
Record JUnitTestSuite : Type := mkSuite {
  SuiteName : string;
  Tests : nat;
  Failures : nat;
  Errors : nat;
  TestCases : list JUnitTestCase
}.

(** Modelled from the spec: [RegisterFailure] and [RegisterError], as
    [TestRegisterFailure] and [TestRegisterError] show them. *)
Definition RegisterFailure (tc : JUnitTestCase) (type message contents : string) : JUnitTestCase :=
  mkTestCase (Classname tc) (Name tc) (Some (mkMessage type message contents)) (Error tc).

Definition RegisterError (tc : JUnitTestCase) (type message : string)
    (contents : shell.error) : JUnitTestCase :=
  mkTestCase (Classname tc) (Name tc) (Failure tc) (Some (mkMessage type message contents)).

(** Modelled from the spec: [RegisterTestCase] as [TestRegisterTestCase]
    and [TestSuiteCounters] show it: the case is appended and counted, and
    no error is returned. *)
Definition RegisterTestCase (suite : JUnitTestSuite) (tc : JUnitTestCase) : JUnitTestSuite :=
  mkSuite (SuiteName suite)
    (S (Tests suite))
    (match Failure tc with Some _ => S (Failures suite) | None => Failures suite end)
    (match Error tc with Some _ => S (Errors suite) | None => Errors suite end)
    (TestCases suite ++ [tc]).

(** Modelled from the spec: the four counts, as [TestSuiteCounters] shows
    them. *)
Definition TestCount (suite : JUnitTestSuite) : nat := Tests suite.
Definition FailureCount (suite : JUnitTestSuite) : nat := Failures suite.
Definition ErrorCount (suite : JUnitTestSuite) : nat := Errors suite.
Definition SuccessCount (suite : JUnitTestSuite) : nat :=
  (Tests suite - Failures suite - Errors suite)%nat.

End junitxml.

(** ** Package run: the coordinator *)

Module run.
Import strutil shell tokenizer junitxml.

Definition returnSuccess : nat := 0.
Definition returnFailure : nat := 1.
Definition returnError : nat := 2.

Definition result (code : nat) : string :=
  match code with
  | 1%nat => "FAILURE"
  | 2%nat => "ERROR"
  | _ => "SUCCESS"
  end.

(** Modelled from the spec: [run.Context], whose declaration is not in the
    sources at hand; the fields that [performInteractions] reads.  What it
    passes to [RegisterReturnCode] is kept in the state of the loop. *)
Record RunContext : Type := mkRunContext {
  DryRun : bool;
  ReplaceDots : bool;
  FailureStops : bool;
  Timeout : Z
}.

(** The summary line printed at the end of a run: whether it carries the
    "(cancelled)" mark, and the four counts of the suite. *)
Record Summary : Type := mkSummary {
  cancelled : bool;
  tests : nat;
  successes : nat;
  failures : nat;
  errors : nat
}.

(** What the loop of [performInteractions] works on: the clock, the
    session, the suite, the codes passed to [RegisterReturnCode], the
    interactions it has been through, and the summary lines printed. *)
Record State : Type := mkState {
  now : N;
  session : Shell;
  suite : JUnitTestSuite;
  returnCodes : list nat;
  visited : list Interaction;
  printed : list Summary
}.

Definition print_summary (c : bool) (st : State) : State :=
  mkState (now st) (session st) (suite st) (returnCodes st) (visited st)
    (printed st ++
     [mkSummary c (TestCount (suite st)) (SuccessCount (suite st))
        (FailureCount (suite st)) (ErrorCount (suite st))]).

(** [strings.ReplaceAll(s, ".", "●")]; the circle is U+25CF. *)
Fixpoint replace_dots (s : string) : string :=
  match s with
  | EmptyString => EmptyString
  | String c s' =>
      if Ascii.eqb c "."%char then bytes [226; 151; 143]%nat +:+ replace_dots s'
      else String c (replace_dots s')
  end.

Definition set_result (i : Interaction) (out : list string) (code : Z)
    (r : ResultState) : Interaction :=
  mkInteraction (Cmd i) (Caption i) (Language i) (Attributes i) (Response i) out code r.

Definition mark (i : Interaction) (r : ResultState) : Interaction :=
  mkInteraction (Cmd i) (Caption i) (Language i) (Attributes i) (Response i)
    (Output i) (ExitCode i) r.

Section Coordinator.

(** The result state after a command that was executed.  It is decided in
    [Interaction.Execute], which is not in the sources at hand, and the
    specification leaves the part of the exit code in it open. *)
Variable classify : Interaction -> list string -> Z -> ResultState.

(** [Interaction.DescribeFull], the text of a failure; not in the sources
    at hand. *)
Variable DescribeFull : Interaction -> string.

(** Modelled from the spec: [Interaction.Execute] (section 4.3).  The
    command is handed to [ExecuteCommand]; when that call fails the
    interaction is marked [ResultExecutionError] and the error is passed
    on as it is (the caller compares it with [ErrTimeout] and
    [ErrCancelled]); otherwise output and exit code are recorded and the
    result state is decided. *)
Definition Execute (ctx : Context) (pick : nat) (t0 : N) (i : Interaction)
    (sh : Shell) (timeout : Z) : option (N * Interaction * Shell * option error) :=
  match ExecuteCommand ctx pick t0 sh (Cmd i) timeout with
  | None => None
  | Some (t, sh', (_, _, Some e)) => Some (t, mark i ResultExecutionError, sh', Some e)
  | Some (t, sh', (out, code, None)) =>
      Some (t, set_result i out code (classify i out code), sh', None)
  end.

Definition performTestCase (runCtx : RunContext) (ctx : Context) (pick : nat)
    (t0 : N) (i : Interaction) (sh : Shell)
    : option (N * JUnitTestCase * Interaction * Shell * option error) :=
  let testcase := mkTestCase EmptyString (Cmd i) None None in
  match Execute ctx pick t0 i sh (Timeout runCtx) with
  | None => None
  | Some (t, i', sh', e) => Some (t, testcase, i', sh', e)
  end.

(** The body of the loop after [performTestCase]: the test case is
    completed and registered, the return codes are recorded. *)
Definition record_result (runCtx : RunContext) (inputfile : string) (st : State)
    (t : N) (testcase : JUnitTestCase) (i : Interaction) (sh : Shell)
    (e : option error) : State :=
  let tc1 :=
    mkTestCase (if ReplaceDots runCtx then replace_dots inputfile else inputfile)
      (Name testcase) (Failure testcase) (Error testcase) in
  let codes1 :=
    match e with
    | Some _ => returnCodes st ++ [returnError]
    | None => returnCodes st
    end in
  let tc2 :=
    match e with
    | Some x => RegisterError tc1 (result returnError) (Result i) x
    | None => tc1
    end in
  let codes2 := if HasFailure i then codes1 ++ [returnFailure] else codes1 in
  let tc3 :=
    if HasFailure i
    then RegisterFailure tc2 (result returnFailure) (Result i) (DescribeFull i)
    else tc2 in
  mkState t sh (RegisterTestCase (suite st) tc3) codes2 (visited st ++ [i]) (printed st).

(** The three [break]s of the loop. *)
Definition stops (runCtx : RunContext) (i : Interaction) (e : option error) : bool :=
  bool_decide (e = Some ErrCancelled)
  || bool_decide (e = Some ErrTimeout)
  || (HasFailure i && FailureStops runCtx).

(** The [for] loop of [performInteractions] from the interaction with the
    given index on.  [sched] is the random choice of each [select] of
    [ExecuteCommand], by index.  The result is the state after the summary
    line, and the interactions that were not attempted; [None] when an
    execution never returns. *)
Fixpoint interaction_loop (runCtx : RunContext) (ctx : Context) (sched : nat -> nat)
    (inputfile : string) (index : nat) (st : State) (todo : list Interaction)
    : option (State * list Interaction) :=
  match todo with
  | [] => Some (print_summary false st, [])
  | i :: todo' =>
      if Done ctx (now st) then Some (print_summary true st, todo)
      else
        match performTestCase runCtx ctx (sched index) (now st) i (session st) with
        | None => None
        | Some (t, testcase, i', sh', e) =>
            let st' := record_result runCtx inputfile st t testcase i' sh' e in
            if stops runCtx i' e then Some (print_summary false st', todo')
            else interaction_loop runCtx ctx sched inputfile (S index) st' todo'
        end
  end.

(** What [performInteractions] depends on outside this model: the
    interactions read from the input file ([ReadInput] and [Tokenize];
    [None] when the file cannot be read) and the output of the shell that
    is started ([DetectShell] and [StartShell]; [None] when that fails). *)
Record Env : Type := mkEnv {
  document : option (list Interaction);
  started : option Stdout
}.

Inductive RunError : Type :=
| ErrReadInput
| ErrShell.

(** The outcome of [performInteractions]: the suite or the error returned,
    the interactions as the run leaves them, the session (if one was
    started) after the deferred [Exit], the return codes registered and
    the summary lines printed. *)
Record Outcome : Type := mkOutcome {
  returned : JUnitTestSuite + RunError;
  interactions : list Interaction;
  final_session : option Shell;
  registered : list nat;
  summaries : list Summary;
  finished : N
}.

Definition suite_of (o : Outcome) : JUnitTestSuite :=
  match returned o with
  | inl s => s
  | inr _ => mkSuite EmptyString 0 0 0 []
  end.

Definition performInteractions (runCtx : RunContext) (ctx : Context)
    (sched : nat -> nat) (env : Env) (t0 : N) (inputfile : string) : option Outcome :=
  let suite0 := mkSuite inputfile 0 0 0 [] in
  match document env with
  | None => Some (mkOutcome (inr ErrReadInput) [] None [] [] t0)
  | Some todo =>
      if DryRun runCtx then Some (mkOutcome (inl suite0) todo None [] [] t0)
      else
        match started env with
        | None => Some (mkOutcome (inr ErrShell) todo None [] [] t0)
        | Some out =>
            let st0 := mkState t0 (mkShell [] out Running false) suite0 [] [] [] in
            match interaction_loop runCtx ctx sched inputfile 0 st0 todo with
            | None => None
            | Some (st, rest) =>
                Some (mkOutcome (inl (suite st)) (visited st ++ rest)
                        (Some (Exit (session st))) (returnCodes st) (printed st) (now st))
            end
        end
  end.

End Coordinator.

(** Notions for the statements about the loop. *)

(** What is written to the shell for a list of interactions. *)
Definition framed (done : list Interaction) : list string :=
  flat_map (fun i => [begin_statement; command_statement (Cmd i)]) done.

(** A test case that records one of the conditions on which the loop
    breaks. *)
Definition stopping (runCtx : RunContext) (tc : JUnitTestCase) : Prop :=
  (exists m, Error tc = Some m /\ (Contents m = ErrTimeout \/ Contents m = ErrCancelled))
  \/ (FailureStops runCtx = true /\ Failure tc ≠ None).

(** The state in which [performInteractions] enters its loop. *)
Definition initial (inputfile : string) (t0 : N) (out : Stdout) : State :=
  mkState t0 (mkShell [] out Running false) (mkSuite inputfile 0 0 0 []) [] [] [].

Definition count (code : nat) (codes : list nat) : nat :=
  length (filter (fun c => c = code) codes).

Definition class_name (runCtx : RunContext) (inputfile : string) : string :=
  if ReplaceDots runCtx then replace_dots inputfile else inputfile.

(** The state after an interaction whose execution returned the error [e]
    at tick [t], leaving the session [sh]: the interaction is marked and
    kept, its test case is registered with the error, and [returnError] is
    registered. *)
Definition after_error (runCtx : RunContext) (inputfile : string) (st : State)
    (t : N) (sh : Shell) (i : Interaction) (e : error) : State :=
  mkState t sh
    (RegisterTestCase (suite st)
       (mkTestCase (class_name runCtx inputfile) (Cmd i) None
          (Some (mkMessage "ERROR" "ERROR (result not evaluated)" e))))
    (returnCodes st ++ [returnError])
    (visited st ++ [mark i ResultExecutionError])
    (printed st).

(** What [ReadInput] asks of the host: [os.ReadFile] on a file name and
    [io.ReadAll] on the standard input, each with the bytes read or
    [None] for an error. *)
Record Files : Type := mkFiles {
  ReadFile : string -> option string;
  ReadAllStdin : option string
}.

Inductive InputError : Type :=
| ErrReadFile (filename : string)   (* "unable to read file ..." *)
| ErrReadStdin.                     (* "unable to read from stdin: ..." *)

(** The loop of [ReadInput] over the file names. *)
Fixpoint read_files (fs : Files) (result : string) (args : list string)
    : string + InputError :=
  match args with
  | [] => inl result
  | filename :: args' =>
      match ReadFile fs filename with
      | None => inr (ErrReadFile filename)
      | Some content => read_files fs (result +:+ content) args'
      end
  end.

(** [ReadInput]. *)
Definition ReadInput (fs : Files) (args : list string) : string + InputError :=
  match args with
  | _ :: _ => read_files fs EmptyString args
  | [] =>
      match ReadAllStdin fs with
      | Some result => inl result
      | None => inr ErrReadStdin
      end
  end.

End run.

(** ** Package version *)

Module version.

(** [Version], for the value of the variable [versionString] (set at build
    time, empty otherwise) and the version of the main module in the build
    information, when [debug.ReadBuildInfo] has one. *)
Definition Version (versionString : string) (buildInfo : option string) : string :=
  if negb (String.eqb versionString EmptyString) then versionString
  else
    match buildInfo with
    | Some v => if negb (String.eqb v EmptyString) then v else "unknown"
    | None => "unknown"
    end.

End version.

(** ** Sessions, documents and runs used as examples *)

Module examples.
Import strutil shell tokenizer junitxml run.

Definition hello_world_session : Shell :=
  mkShell []
    (feed [(1%N, "leftover")]
       (Line 2 beginMarker
          (feed [(3%N, "Hello"); (1%N, "World")]
             (Line 1 (endMarker +:+ " 0") (Line 5 "later" Blocked)))))
    Running false.

Definition stalled_session : Shell := mkShell [] Blocked Running false.

(** A session whose answer ends in an end line with the token [abc],
    after one line of output. *)
Definition garbled_session : Shell :=
  mkShell []
    (Line 2 beginMarker (Line 1 "partial" (Line 1 (endMarker +:+ " abc") (EOF 4))))
    Running false.

(** A stream in which the begin marker comes twice and the line after the
    end line looks like an end line too. *)
Definition echoing_session : Shell :=
  mkShell []
    (Line 1 beginMarker
       (Line 1 "one"
          (Line 1 beginMarker
             (Line 1 endMarker
                (Line 1 (endMarker +:+ " 3") (Line 1 (endMarker +:+ " 4") Blocked))))))
    Running false.

(** The result state decided by the response matcher alone: one way of
    filling in [classify], for the examples. *)
Definition by_output (i : Interaction) (out : list string) (code : Z) : ResultState :=
  if evaluateResponse (Response i) out then ResultMatch else ResultMismatch.

Definition interaction (command : string) (response : list string) : Interaction :=
  mkInteraction command EmptyString EmptyString ∅ response [] 0 NewInteraction.

(** The choice of the first ready case, in the order of the source. *)
Definition first_ready : nat -> nat := fun _ => 0%nat.

(** A run in which the first command prints nothing before the timeout of
    100 ms. *)
Definition slow_document : list Interaction :=
  [interaction "sleep 10" []; interaction "echo after" ["after"]].

Definition slow_run (classify : Interaction -> list string -> Z -> ResultState)
    (DescribeFull : Interaction -> string) (sched : nat -> nat) : option Outcome :=
  performInteractions classify DescribeFull (mkRunContext false false false 100000000)
    Background sched (mkEnv (Some slow_document) (Some Blocked)) 0 "README.md".

Definition slow_start : State :=
  mkState 0 stalled_session (mkSuite "README.md" 0 0 0 []) [] [] [].

(** A run in which the first command prints a line that looks like an
    end line with the token [abc]; the end line of the shell follows it. *)
Definition garbled_document : list Interaction :=
  [interaction ("echo '" +:+ endMarker +:+ " abc'") [];
   interaction "echo world" ["world"]].

Definition garbled_answer : Stdout :=
  Line 1 beginMarker
    (Line 1 (endMarker +:+ " abc")
       (Line 1 (endMarker +:+ " 0")
          (Line 1 beginMarker (Line 1 "world" (Line 1 (endMarker +:+ " 0") Blocked))))).

Definition garbled_run : option Outcome :=
  performInteractions by_output Cmd (mkRunContext false false false 0) Background
    first_ready (mkEnv (Some garbled_document) (Some garbled_answer)) 0 "README.md".

Definition garbled_start : State :=
  mkState 0 (mkShell [] garbled_answer Running false)
    (mkSuite "README.md" 0 0 0 []) [] [] [].

(** A run that is cancelled at tick 3, the moment at which the answer to
    its first command is complete. *)
Definition polite_answer : Stdout :=
  Line 1 beginMarker (Line 1 "hello" (Line 1 (endMarker +:+ " 0") Blocked)).

Definition after_first : State :=
  mkState 3
    (mkShell [begin_statement; command_statement "echo hello"] Blocked Running false)
    (mkSuite "README.md" 1 0 0 [mkTestCase "README.md" "echo hello" None None])
    [] [mkInteraction "echo hello" EmptyString EmptyString ∅ ["hello"] ["hello"] 0 ResultMatch]
    [].

(** The answers to two commands, with a stray line between them. *)
Definition two_answers : Stdout :=
  Line 1 beginMarker
    (Line 1 "hello"
       (Line 1 (endMarker +:+ " 0")
          (Line 2 "stray"
             (Line 1 beginMarker (Line 1 "world" (Line 1 (endMarker +:+ " 1") Blocked)))))).

End examples.

(** * Properties of the shell execution engine *)

Module shell_facts.
Import strutil shell examples.

Lemma beginRx_MatchString_true (line : string) :
  beginRx_MatchString line = true <-> line = beginMarker.
Proof. unfold beginRx_MatchString. apply String.eqb_eq. Qed.

Lemma beginRx_MatchString_false (line : string) :
  beginRx_MatchString line = false <-> line ≠ beginMarker.
Proof. unfold beginRx_MatchString. apply String.eqb_neq. Qed.

Lemma end_line_not_begin (line token : string) :
  endRx_FindStringSubmatch line = Some token -> beginRx_MatchString line = false.
Proof.
  intros Hend. destruct (beginRx_MatchString line) eqn:Hb; [|reflexivity].
  apply beginRx_MatchString_true in Hb. subst line. vm_compute in Hend. discriminate.
Qed.

Lemma is_marker_false (line : string) :
  is_marker line = false <->
  beginRx_MatchString line = false /\ endRx_FindStringSubmatch line = None.
Proof.
  unfold is_marker. rewrite orb_false_iff, bool_decide_eq_false.
  rewrite <- eq_None_not_Some. reflexivity.
Qed.

(** What the loop sends never holds a marker line, if what it had collected
    before did not. *)
Lemma scan_loop_clean (s : Stdout) :
  forall beginFound acc elapsed t r rest,
    Forall (fun l => is_marker l = false) acc ->
    scan_loop beginFound acc elapsed s = Some (t, r, rest) ->
    Forall (fun l => is_marker l = false) (output r).
Proof.
  induction s as [d line s IH | d |]; intros bf acc el t r rest Hacc Hscan;
    simpl in Hscan.
  - destruct (beginRx_MatchString line) eqn:Hb; [eauto|].
    destruct bf; simpl in Hscan; [|eauto].
    destruct (endRx_FindStringSubmatch line) as [token|] eqn:He.
    + destruct (Atoi token); inversion Hscan; subst; simpl; auto.
    + eapply IH; [|exact Hscan]. apply Forall_app. split; [exact Hacc|].
      constructor; [|constructor]. apply is_marker_false. auto.
  - inversion Hscan; subst. exact Hacc.
  - discriminate.
Qed.

(** An error is sent with no output and with the exit code -1, and it is
    the error of the exit code. *)
Lemma scan_loop_error (s : Stdout) :
  forall beginFound acc elapsed t r rest e,
    scan_loop beginFound acc elapsed s = Some (t, r, rest) ->
    err r = Some e ->
    output r = [] /\ rc r = -1 /\ exists token, e = ErrExitCode token.
Proof.
  induction s as [d line s IH | d |]; intros bf acc el t r rest e Hscan Herr;
    simpl in Hscan.
  - destruct (beginRx_MatchString line); [eauto|].
    destruct bf; simpl in Hscan; [|eauto].
    destruct (endRx_FindStringSubmatch line) as [token|]; [|eauto].
    destruct (Atoi token); inversion Hscan; subst; simpl in *; [discriminate|].
    inversion Herr; eauto.
  - inversion Hscan; subst. discriminate.
  - discriminate.
Qed.

(** *** The [select] statement *)

Lemma earliest_le (cs : list (N * Case)) (t : N) :
  earliest cs = Some t -> forall c, c ∈ cs -> (t <= fst c)%N.
Proof.
  destruct cs as [|[t0 k0] cs]; [discriminate|]. simpl. intros [= <-] c Hc.
  revert c Hc. induction cs as [|c1 cs IH]; intros c Hc.
  - apply list_elem_of_singleton in Hc. subst. simpl. lia.
  - simpl. apply elem_of_cons in Hc as [->|Hc].
    + simpl. assert (H0 := IH (t0, k0) ltac:(left)). simpl in H0. lia.
    + apply elem_of_cons in Hc as [->|Hc]; [lia|].
      assert (H0 := IH c ltac:(right; exact Hc)). lia.
Qed.

Lemma earliest_attained (cs : list (N * Case)) (t : N) :
  earliest cs = Some t -> exists c, c ∈ cs /\ fst c = t.
Proof.
  destruct cs as [|[t0 k0] cs]; [discriminate|]. simpl. intros [= <-].
  induction cs as [|c1 cs IH].
  - exists (t0, k0). split; [left|reflexivity].
  - simpl. destruct IH as (c & Hc & Heq).
    destruct (N.min_spec (fst c1) (fold_right (fun c m => N.min (fst c) m) t0 cs))
      as [[_ ->]|[_ ->]].
    + exists c1. split; [right; left|reflexivity].
    + exists c. split; [|exact Heq].
      apply elem_of_cons in Hc as [->|Hc]; [left|right; right; exact Hc].
Qed.

(** The case taken is one of the cases, and none is ready before it. *)
Lemma select_sound (pick : nat) (cs : list (N * Case)) (c : N * Case) :
  select pick cs = Some c ->
  c ∈ cs /\ forall c', c' ∈ cs -> (fst c <= fst c')%N.
Proof.
  unfold select. destruct (earliest cs) as [t|] eqn:Ht; [|discriminate].
  intros Hc. apply list_elem_of_lookup_2 in Hc.
  apply list_elem_of_filter in Hc as [Hfst Hin]. split; [exact Hin|].
  intros c' Hc'. rewrite Hfst. eapply earliest_le; eauto.
Qed.

(** With at least one case the statement does not block for ever. *)
Lemma select_returns (pick : nat) (cs : list (N * Case)) :
  cs ≠ [] -> is_Some (select pick cs).
Proof.
  intros Hne. unfold select. destruct (earliest cs) as [t|] eqn:Ht.
  - destruct (earliest_attained _ _ Ht) as (c & Hin & Hfst).
    apply lookup_lt_is_Some. apply Nat.mod_upper_bound.
    assert (Hc : c ∈ filter (fun c => fst c = t) cs)
      by (apply list_elem_of_filter; auto).
    destruct (filter (fun c => fst c = t) cs); [inversion Hc|simpl; lia].
  - destruct cs as [|[? ?] ?]; [congruence|discriminate].
Qed.

Lemma select_nil (pick : nat) : select pick [] = None.
Proof. reflexivity. Qed.

(** A case that is ready strictly before every other one is the one taken. *)
Lemma select_first (pick : nat) (cs : list (N * Case)) (c : N * Case) :
  c ∈ cs ->
  (forall c', c' ∈ cs -> c' = c \/ (fst c < fst c')%N) ->
  select pick cs = Some c.
Proof.
  intros Hin Hfirst.
  destruct (select_returns pick cs) as [c' Hsel]; [intros ->; inversion Hin|].
  rewrite Hsel. f_equal.
  destruct (select_sound _ _ _ Hsel) as [Hin' Hmin].
  destruct (Hfirst c' Hin') as [->|Hlt]; [reflexivity|].
  specialize (Hmin c Hin). lia.
Qed.

Lemma elem_of_cases ctx now timeout scanned (c : N * Case) :
  c ∈ cases ctx now timeout scanned <->
  (exists d r rest, scanned = Some (d, r, rest) /\ c = ((now + d)%N, CaseResult r rest))
  \/ (0 < timeout /\ c = ((now + Z.to_N timeout)%N, CaseTimeout))
  \/ (exists c0, doneAt ctx = Some c0 /\ c = (N.max c0 now, CaseDone)).
Proof.
  unfold cases. rewrite !elem_of_app. split.
  - intros [H|[H|H]].
    + destruct scanned as [[[d r] rest]|]; [|inversion H].
      apply list_elem_of_singleton in H. left. eauto.
    + destruct (0 <? timeout) eqn:Ht; [|inversion H].
      apply list_elem_of_singleton in H. right; left. split; [lia|exact H].
    + destruct (doneAt ctx) as [c0|]; [|inversion H].
      apply list_elem_of_singleton in H. right; right. eauto.
  - intros [(d & r & rest & -> & ->)|[[Ht ->]|(c0 & -> & ->)]].
    + left. left.
    + right; left. replace (0 <? timeout) with true by lia. left.
    + right; right. left.
Qed.

(** What a call that returns has done: one of the three cases of its
    [select]. *)
Lemma ExecuteCommand_inv ctx pick now sh command timeout t sh' res :
  ExecuteCommand ctx pick now sh command timeout = Some (t, sh', res) ->
  (exists d r rest,
      scan (stdout sh) = Some (d, r, rest) /\ t = (now + d)%N /\
      sh' = mkShell (stdin (send sh command)) rest (cmd sh) (abandoned_scan sh) /\
      res = (output r, rc r, err r))
  \/ (0 < timeout /\ t = (now + Z.to_N timeout)%N /\
      sh' = mkShell (stdin (send sh command)) (stdout sh) (cmd sh) true /\
      res = ([], -1, Some ErrTimeout))
  \/ (exists c0,
      doneAt ctx = Some c0 /\ t = N.max c0 now /\
      sh' = mkShell (stdin (send sh command)) (stdout sh) (cmd sh) true /\
      res = ([], -1, Some ErrCancelled)).
Proof.
  unfold ExecuteCommand. simpl.
  destruct (select pick (cases ctx now timeout (scan (stdout sh))))
    as [[t' k]|] eqn:Hsel; [|discriminate].
  apply select_sound in Hsel as [Hin _]. apply elem_of_cases in Hin.
  destruct Hin as [(d & r & rest & Hs & Heq)|[[Ht Heq]|(c0 & Hc & Heq)]];
    inversion Heq; subst; intros Hret; inversion Hret; subst.
  - left. exists d, r, rest. auto.
  - right; left. auto.
  - right; right. exists c0. auto.
Qed.

Lemma scan_loop_skip (pre : list (N * string)) :
  forall acc elapsed s,
    Forall (fun l => snd l ≠ beginMarker) pre ->
    scan_loop false acc elapsed (feed pre s) =
    scan_loop false acc (elapsed + total_delay pre)%N s.
Proof.
  induction pre as [|[d text] pre IH]; intros acc el s Hpre; simpl.
  - f_equal. lia.
  - inversion Hpre as [|? ? Hne Hpre']; subst. simpl in Hne.
    apply beginRx_MatchString_false in Hne. rewrite Hne. simpl.
    rewrite IH by assumption. f_equal. lia.
Qed.

Lemma scan_loop_collect (body : list (N * string)) :
  forall acc elapsed s,
    Forall (fun l => endRx_FindStringSubmatch (snd l) = None) body ->
    scan_loop true acc elapsed (feed body s) =
    scan_loop true (acc ++ filter (fun l => l ≠ beginMarker) (map snd body))
      (elapsed + total_delay body)%N s.
Proof.
  induction body as [|[d text] body IH]; intros acc el s Hbody; simpl.
  - rewrite app_nil_r. f_equal. lia.
  - inversion Hbody as [|? ? Hnone Hbody']; subst. simpl in Hnone.
    rewrite filter_cons. destruct (beginRx_MatchString text) eqn:Hb.
    + apply beginRx_MatchString_true in Hb. rewrite decide_False by tauto.
      rewrite IH by assumption. f_equal. lia.
    + apply beginRx_MatchString_false in Hb. rewrite decide_True by assumption.
      simpl. rewrite Hnone, IH by assumption.
      rewrite <- app_assoc. simpl. f_equal. lia.
Qed.

(** The scan of a framed answer: lines before the begin marker, the begin
    marker, the body, and a line the end pattern matches. *)
Lemma scan_framed pre body d_begin d_end end_line token rest :
  Forall (fun l => snd l ≠ beginMarker) pre ->
  Forall (fun l => endRx_FindStringSubmatch (snd l) = None) body ->
  endRx_FindStringSubmatch end_line = Some token ->
  scan (feed pre (Line d_begin beginMarker (feed body (Line d_end end_line rest)))) =
  Some ((total_delay pre + d_begin + total_delay body + d_end)%N,
        match Atoi token with
        | Some value =>
            mkResult (filter (fun l => l ≠ beginMarker) (map snd body)) value None
        | None => mkResult [] (-1) (Some (ErrExitCode token))
        end,
        rest).
Proof.
  intros Hpre Hbody Hend. unfold scan.
  rewrite scan_loop_skip by assumption. simpl scan_loop at 1.
  replace (beginRx_MatchString beginMarker) with true by reflexivity.
  rewrite scan_loop_collect by assumption. simpl.
  rewrite (end_line_not_begin _ _ Hend), Hend.
  destruct (Atoi token); repeat f_equal; lia.
Qed.

Lemma select_single (pick : nat) (c : N * Case) : select pick [c] = Some c.
Proof.
  apply select_first; [left|]. intros c' Hc'.
  apply list_elem_of_singleton in Hc'. auto.
Qed.

(** The three ways in which a call ends. *)
Lemma ExecuteCommand_scan_first ctx pick now sh command timeout d r rest :
  scan (stdout sh) = Some (d, r, rest) ->
  (0 < timeout -> (d < Z.to_N timeout)%N) ->
  (forall c, doneAt ctx = Some c -> (now + d < c)%N) ->
  ExecuteCommand ctx pick now sh command timeout =
  Some ((now + d)%N,
        mkShell (stdin sh ++ [begin_statement; command_statement command]) rest
          (cmd sh) (abandoned_scan sh),
        (output r, rc r, err r)).
Proof.
  intros Hscan Htimer Hdone. unfold ExecuteCommand. simpl.
  rewrite (select_first pick _ ((now + d)%N, CaseResult r rest)); [reflexivity| |].
  - apply elem_of_cases. left. eauto.
  - intros c' Hc'. apply elem_of_cases in Hc'.
    destruct Hc' as [(d' & r' & rest' & Hs & ->)|[[Ht ->]|(c0 & Hc & ->)]].
    + left. congruence.
    + right. simpl. specialize (Htimer Ht). lia.
    + right. simpl. specialize (Hdone _ Hc). lia.
Qed.

Lemma ExecuteCommand_timer_first ctx pick now sh command timeout :
  0 < timeout ->
  (forall d r rest, scan (stdout sh) = Some (d, r, rest) -> (Z.to_N timeout < d)%N) ->
  (forall c, doneAt ctx = Some c -> (now + Z.to_N timeout < c)%N) ->
  ExecuteCommand ctx pick now sh command timeout =
  Some ((now + Z.to_N timeout)%N,
        mkShell (stdin sh ++ [begin_statement; command_statement command]) (stdout sh)
          (cmd sh) true,
        ([], -1, Some ErrTimeout)).
Proof.
  intros Hpos Hscan Hdone. unfold ExecuteCommand. simpl.
  rewrite (select_first pick _ ((now + Z.to_N timeout)%N, CaseTimeout)); [reflexivity| |].
  - apply elem_of_cases. right; left. auto.
  - intros c' Hc'. apply elem_of_cases in Hc'.
    destruct Hc' as [(d' & r' & rest' & Hs & ->)|[[Ht ->]|(c0 & Hc & ->)]].
    + right. simpl. specialize (Hscan _ _ _ Hs). lia.
    + left. reflexivity.
    + right. simpl. specialize (Hdone _ Hc). lia.
Qed.

Lemma ExecuteCommand_done_first ctx pick now sh command timeout c :
  doneAt ctx = Some c ->
  (forall d r rest, scan (stdout sh) = Some (d, r, rest) -> (N.max c now < now + d)%N) ->
  (0 < timeout -> (N.max c now < now + Z.to_N timeout)%N) ->
  ExecuteCommand ctx pick now sh command timeout =
  Some (N.max c now,
        mkShell (stdin sh ++ [begin_statement; command_statement command]) (stdout sh)
          (cmd sh) true,
        ([], -1, Some ErrCancelled)).
Proof.
  intros Hc Hscan Htimer. unfold ExecuteCommand. simpl.
  rewrite (select_first pick _ (N.max c now, CaseDone)); [reflexivity| |].
  - apply elem_of_cases. right; right. eauto.
  - intros c' Hc'. apply elem_of_cases in Hc'.
    destruct Hc' as [(d' & r' & rest' & Hs & ->)|[[Ht ->]|(c0 & Hc0 & ->)]].
    + right. simpl. specialize (Hscan _ _ _ Hs). lia.
    + right. simpl. specialize (Htimer Ht). lia.
    + left. congruence.
Qed.

(** *** Framing (C1) *)

(** C1. [ExecuteCommand] writes two statements into the input stream of
    the session: the echo of the begin marker, and the (trimmed) command
    followed, after a [;], by the echo of the end marker and [$?].  Reading
    an answer made of lines other than the begin marker, the begin marker,
    a body without end line, and a line that the end pattern matches with
    a token that [Atoi] parses, it drops the lines before the begin marker,
    collects the lines of the body (a repeated begin marker is consumed,
    not collected) and returns them with the token's value as exit code,
    leaving the rest of the stream unread.  This is what the call returns
    when the end line is read before the timer, if there is one, and
    before a cancellation. *)
Theorem ExecuteCommand_frames (ctx : Context) (sh : Shell) (command : string)
    (pick : nat) (now : N) (timeout : Z) (pre body : list (N * string))
    (d_begin d_end : N) (end_line token : string) (value : Z) (rest : Stdout) :
  let d := (total_delay pre + d_begin + total_delay body + d_end)%N in
  stdout sh = feed pre (Line d_begin beginMarker (feed body (Line d_end end_line rest))) ->
  Forall (fun l => snd l ≠ beginMarker) pre ->
  Forall (fun l => endRx_FindStringSubmatch (snd l) = None) body ->
  endRx_FindStringSubmatch end_line = Some token ->
  Atoi token = Some value ->
  (0 < timeout -> (d < Z.to_N timeout)%N) ->
  (forall c, doneAt ctx = Some c -> (now + d < c)%N) ->
  ExecuteCommand ctx pick now sh command timeout =
  Some ((now + d)%N,
        mkShell
          (stdin sh ++
           ["echo " +:+ dquote +:+ beginMarker +:+ dquote +:+ nl;
            TrimSpace command +:+ "; echo " +:+ dquote +:+ endMarker +:+ " $?"
              +:+ dquote +:+ nl])
          rest (cmd sh) (abandoned_scan sh),
        (filter (fun l => l ≠ beginMarker) (map snd body), value, None)).
Proof.
  intros d Hout Hpre Hbody Hend Hatoi Htimer Hctx.
  pose proof (scan_framed _ _ d_begin d_end _ _ rest Hpre Hbody Hend) as Hscan.
  rewrite <- Hout, Hatoi in Hscan.
  rewrite (ExecuteCommand_scan_first _ _ _ _ _ _ _ _ _ Hscan Htimer Hctx).
  reflexivity.
Qed.

Lemma ExecuteCommand_frames_witness :
  ExecuteCommand (mkContext (Some 1000%N)) 0 10 hello_world_session
    " echo Hello && echo World " 5000000000 =
  Some (18%N,
        mkShell
          ["echo " +:+ dquote +:+ beginMarker +:+ dquote +:+ nl;
           "echo Hello && echo World; echo " +:+ dquote +:+ endMarker +:+ " $?"
             +:+ dquote +:+ nl]
          (Line 5 "later" Blocked) Running false,
        (["Hello"; "World"], 0, None)).
Proof.
  apply (ExecuteCommand_frames (mkContext (Some 1000%N)) hello_world_session
           " echo Hello && echo World " 0 10 5000000000
           [(1%N, "leftover")] [(3%N, "Hello"); (1%N, "World")] 2 1
           (endMarker +:+ " 0") "0" 0 (Line 5 "later" Blocked)).
  - reflexivity.
  - repeat (constructor; [vm_compute; discriminate|]). constructor.
  - repeat (constructor; [vm_compute; reflexivity|]). constructor.
  - vm_compute. reflexivity.
  - vm_compute. reflexivity.
  - intros _. vm_compute. reflexivity.
  - intros c Hc. inversion Hc; subst. vm_compute. reflexivity.
Defined.

(** *** The race (C2) *)

(** C2. The call ends with the case of its [select] that is ready first:
    - the result of the scan, returned as it is, when the scan delivers
      before the timer (if there is one) and before the cancellation;
    - [ErrTimeout] when the timeout is positive and elapses before the scan
      delivers and before the cancellation;
    - [ErrCancelled] when the cancellation comes before the scan delivers
      and before the timer (if there is one);
    - with a zero timeout the call never ends in [ErrTimeout], and when the
      scan never delivers it returns only if the context is cancelled. *)
Theorem ExecuteCommand_race (ctx : Context) (pick : nat) (now : N) (sh : Shell)
    (command : string) (timeout : Z) :
  let sent := stdin sh ++ [begin_statement; command_statement command] in
  (forall d r rest,
      scan (stdout sh) = Some (d, r, rest) ->
      (0 < timeout -> (d < Z.to_N timeout)%N) ->
      (forall c, doneAt ctx = Some c -> (now + d < c)%N) ->
      ExecuteCommand ctx pick now sh command timeout =
      Some ((now + d)%N, mkShell sent rest (cmd sh) (abandoned_scan sh),
            (output r, rc r, err r)))
  /\ (0 < timeout ->
      (forall d r rest, scan (stdout sh) = Some (d, r, rest) -> (Z.to_N timeout < d)%N) ->
      (forall c, doneAt ctx = Some c -> (now + Z.to_N timeout < c)%N) ->
      ExecuteCommand ctx pick now sh command timeout =
      Some ((now + Z.to_N timeout)%N, mkShell sent (stdout sh) (cmd sh) true,
            ([], -1, Some ErrTimeout)))
  /\ (forall c,
      doneAt ctx = Some c ->
      (forall d r rest, scan (stdout sh) = Some (d, r, rest) -> (N.max c now < now + d)%N) ->
      (0 < timeout -> (N.max c now < now + Z.to_N timeout)%N) ->
      ExecuteCommand ctx pick now sh command timeout =
      Some (N.max c now, mkShell sent (stdout sh) (cmd sh) true,
            ([], -1, Some ErrCancelled)))
  /\ (timeout = 0 ->
      (forall t sh' out code e,
          ExecuteCommand ctx pick now sh command timeout = Some (t, sh', (out, code, e)) ->
          e ≠ Some ErrTimeout)
      /\ (scan (stdout sh) = None ->
          (ExecuteCommand ctx pick now sh command timeout = None <-> doneAt ctx = None))).
Proof.
  intros sent.
  split; [|split; [|split; [|intros Hzero; split; [|intros Hnone; split]]]].
  - intros d r rest. apply ExecuteCommand_scan_first.
  - apply ExecuteCommand_timer_first.
  - intros c. apply ExecuteCommand_done_first.
  - intros t sh' out code e Hret ->.
    apply ExecuteCommand_inv in Hret.
    destruct Hret as [(d & r & rest & Hs & _ & _ & Hres)|[[Ht _]|(c0 & _ & _ & _ & Hres)]].
    + inversion Hres as [[Ho Hc He]]. symmetry in He.
      destruct (scan_loop_error _ _ _ _ _ _ _ _ Hs He) as (_ & _ & token & Htok).
      discriminate.
    + lia.
    + discriminate.
  - unfold ExecuteCommand. simpl. rewrite Hnone.
    unfold cases. replace (0 <? timeout) with false by lia. simpl.
    destruct (doneAt ctx) as [c|]; [|reflexivity].
    rewrite select_single. discriminate.
  - intros Hctx. unfold ExecuteCommand. simpl. rewrite Hnone.
    unfold cases. rewrite Hctx. replace (0 <? timeout) with false by lia.
    reflexivity.
Qed.

Lemma ExecuteCommand_race_witness :
  ExecuteCommand Background 0 10 hello_world_session "echo Hello && echo World" 1000 =
    Some (18%N,
          mkShell [begin_statement; command_statement "echo Hello && echo World"]
            (Line 5 "later" Blocked) Running false,
          (["Hello"; "World"], 0, None))
  /\ ExecuteCommand Background 0 10 stalled_session "sleep 10" 100000000 =
    Some (100000010%N,
          mkShell [begin_statement; command_statement "sleep 10"] Blocked Running true,
          ([], -1, Some ErrTimeout))
  /\ ExecuteCommand (mkContext (Some 25%N)) 0 10 stalled_session "sleep 10" 100000000 =
    Some (25%N,
          mkShell [begin_statement; command_statement "sleep 10"] Blocked Running true,
          ([], -1, Some ErrCancelled))
  /\ ExecuteCommand Background 0 10 stalled_session "sleep 10" 0 = None.
Proof.
  split; [|split; [|split]].
  - destruct (ExecuteCommand_race Background 0 10 hello_world_session
                "echo Hello && echo World" 1000) as (Hscan & _).
    apply (Hscan 8%N (mkResult ["Hello"; "World"] 0 None) (Line 5 "later" Blocked)).
    + vm_compute. reflexivity.
    + intros _. vm_compute. reflexivity.
    + intros c Hc. discriminate Hc.
  - destruct (ExecuteCommand_race Background 0 10 stalled_session "sleep 10" 100000000)
      as (_ & Htimer & _).
    apply Htimer.
    + lia.
    + intros d r rest Hs. discriminate Hs.
    + intros c Hc. discriminate Hc.
  - destruct (ExecuteCommand_race (mkContext (Some 25%N)) 0 10 stalled_session
                "sleep 10" 100000000) as (_ & _ & Hdone & _).
    apply (Hdone 25%N).
    + reflexivity.
    + intros d r rest Hs. discriminate Hs.
    + intros _. vm_compute. reflexivity.
  - destruct (ExecuteCommand_race Background 0 10 stalled_session "sleep 10" 0)
      as (_ & _ & _ & Hzero).
    destruct (Hzero eq_refl) as [_ Hblocked].
    apply (Hblocked eq_refl). reflexivity.
Defined.

(** *** Error results (C9) *)

(** C9. Whenever [ExecuteCommand] returns an error it returns it with the
    nil output and the exit code -1; the error is [ErrTimeout],
    [ErrCancelled] or the error of an exit code that does not parse. *)
Theorem ExecuteCommand_error_result (ctx : Context) (pick : nat) (now : N)
    (sh : Shell) (command : string) (timeout : Z) (t : N) (sh' : Shell)
    (out : list string) (code : Z) (e : error) :
  ExecuteCommand ctx pick now sh command timeout = Some (t, sh', (out, code, Some e)) ->
  out = [] /\ code = -1 /\
  (e = ErrTimeout \/ e = ErrCancelled \/ exists token, e = ErrExitCode token).
Proof.
  intros Hret. apply ExecuteCommand_inv in Hret.
  destruct Hret as [(d & r & rest & Hs & _ & _ & Hres)|[(_ & _ & _ & Hres)|(c0 & _ & _ & _ & Hres)]];
    inversion Hres as [[Ho Hc He]]; subst.
  - symmetry in He.
    destruct (scan_loop_error _ _ _ _ _ _ _ _ Hs He) as (Hout & Hrc & token & ->).
    eauto 6.
  - auto.
  - auto.
Qed.

Lemma ExecuteCommand_error_result_witness :
  ExecuteCommand Background 0 0 garbled_session "echo partial" 0 =
    Some (4%N,
          mkShell [begin_statement; command_statement "echo partial"] (EOF 4) Running false,
          ([], -1, Some (ErrExitCode "abc")))
  /\ (@nil string = [] /\ -1 = -1 /\
      (ErrExitCode "abc" = ErrTimeout \/ ErrExitCode "abc" = ErrCancelled \/
       exists token, ErrExitCode "abc" = ErrExitCode token)).
Proof.
  assert (Hrun :
    ExecuteCommand Background 0 0 garbled_session "echo partial" 0 =
    Some (4%N,
          mkShell [begin_statement; command_statement "echo partial"] (EOF 4) Running false,
          ([], -1, Some (ErrExitCode "abc")))) by (vm_compute; reflexivity).
  split; [exact Hrun|].
  exact (ExecuteCommand_error_result _ _ _ _ _ _ _ _ _ _ _ Hrun).
Defined.

(** *** No marker in the output (C10) *)

(** C10. No line of the output that [ExecuteCommand] returns is matched by
    the begin pattern or by the end pattern, whatever the command and the
    content of the stream. *)
Theorem ExecuteCommand_output_clean (ctx : Context) (pick : nat) (now : N)
    (sh : Shell) (command : string) (timeout : Z) (t : N) (sh' : Shell)
    (out : list string) (code : Z) (e : option error) :
  ExecuteCommand ctx pick now sh command timeout = Some (t, sh', (out, code, e)) ->
  Forall (fun line =>
            beginRx_MatchString line = false /\
            endRx_FindStringSubmatch line = None) out.
Proof.
  intros Hret. apply ExecuteCommand_inv in Hret.
  destruct Hret as [(d & r & rest & Hs & _ & _ & Hres)|[(_ & _ & _ & Hres)|(c0 & _ & _ & _ & Hres)]];
    inversion Hres as [[Ho Hc He]]; subst; [|constructor|constructor].
  eapply Forall_impl.
  - eapply scan_loop_clean; [|exact Hs]. constructor.
  - intros line Hline. apply is_marker_false. exact Hline.
Qed.

Lemma ExecuteCommand_output_clean_witness :
  ExecuteCommand Background 0 0 echoing_session "cat notes" 0 =
    Some (5%N,
          mkShell [begin_statement; command_statement "cat notes"]
            (Line 1 (endMarker +:+ " 4") Blocked) Running false,
          (["one"; endMarker], 3, None))
  /\ Forall (fun line =>
               beginRx_MatchString line = false /\
               endRx_FindStringSubmatch line = None) ["one"; endMarker].
Proof.
  assert (Hrun :
    ExecuteCommand Background 0 0 echoing_session "cat notes" 0 =
    Some (5%N,
          mkShell [begin_statement; command_statement "cat notes"]
            (Line 1 (endMarker +:+ " 4") Blocked) Running false,
          (["one"; endMarker], 3, None))) by (vm_compute; reflexivity).
  split; [exact Hrun|].
  exact (ExecuteCommand_output_clean _ _ _ _ _ _ _ _ _ _ _ Hrun).
Defined.

End shell_facts.

(** * Properties of the response matcher and of the extractor *)

Module tokenizer_facts.
Import strutil tokenizer.

(** *** Agreement of the modelled parts with the tests of the package *)

(** The table of [TestEvaluateResponse]. *)
Example evaluateResponse_test_table :
  evaluateResponse ["hello"] ["hello"] = true
  /\ evaluateResponse ["hello"] ["world"] = false
  /\ evaluateResponse [] [] = true
  /\ evaluateResponse ["hello"; "..."] ["hello"; "extra"; "lines"] = true
  /\ evaluateResponse ["..."] ["anything"; "here"] = true.
Proof. repeat split. Qed.

(** The table of [TestParseCodeBlockInfoString]. *)
Example parseCodeBlockInfoString_test_table :
  parseCodeBlockInfoString EmptyString = (EmptyString, ∅)
  /\ fst (parseCodeBlockInfoString "bash") = EmptyString
  /\ (let r := parseCodeBlockInfoString "shell {shelldocexitcode=0}" in
      fst r = "shell" /\ snd r !! "shelldocexitcode" = Some "0")
  /\ (let r := parseCodeBlockInfoString "bash {shelldocexitcode=1 shelldocwhatever}" in
      fst r = "bash" /\ snd r !! "shelldocexitcode" = Some "1" /\
      snd r !! "shelldocwhatever" = Some EmptyString)
  /\ (let r := parseCodeBlockInfoString "shell {.class other=value shelldocexitcode=2}" in
      fst r = "shell" /\ snd r !! "shelldocexitcode" = Some "2" /\
      snd r !! "other" = None /\ snd r !! ".class" = None).
Proof. repeat split; vm_compute; reflexivity. Qed.

(** [TestTokenizeMultipleCommands], [TestTokenizeGreaterThanPrompt],
    [TestTokenizeCodeBlockResponseBeforeCommand], [TestTokenizeEmptyCodeBlock]
    and [TestTokenizeCodeBlockWithoutTrigger], on the literal of their code
    block. *)
Example codeBlock_tests :
  map Cmd (codeBlock EmptyString
             ("$ echo one" +:+ nl +:+ "one" +:+ nl +:+ "$ echo two" +:+ nl +:+ "two" +:+ nl)
             EmptyString) = ["echo one"; "echo two"]
  /\ map Cmd (codeBlock EmptyString ("> echo hello" +:+ nl +:+ "hello" +:+ nl) EmptyString) =
     ["echo hello"]
  /\ map Cmd (codeBlock EmptyString
                ("orphan response line" +:+ nl +:+ "$ echo hello" +:+ nl) EmptyString) =
     ["echo hello"]
  /\ codeBlock EmptyString EmptyString EmptyString = []
  /\ codeBlock EmptyString ("some output without $ or > prefix" +:+ nl) EmptyString = [].
Proof. repeat split; vm_compute; reflexivity. Qed.

(** The tables of [TestInteractionHasFailure] and [TestInteractionResult]. *)
Example HasFailure_test_table :
  map (fun r => HasFailure (mkInteraction EmptyString EmptyString EmptyString ∅ [] [] 0 r))
    [NewInteraction; ResultExecutionError; ResultMatch; ResultRegexMatch;
     ResultMismatch; ResultError] =
  [false; false; false; false; true; true].
Proof. reflexivity. Qed.

Example Result_test_table :
  map (fun rr => Result (mkInteraction EmptyString EmptyString EmptyString ∅ (snd rr) [] 0
                           (fst rr)))
    [(NewInteraction, []); (ResultExecutionError, []); (ResultMatch, []);
     (ResultMatch, ["hello"]); (ResultRegexMatch, []); (ResultMismatch, []);
     (ResultError, [])] =
  ["not executed"; "ERROR (result not evaluated)"; "PASS (execution successful)";
   "PASS (match)"; "PASS (regex match)"; "FAIL (mismatch)"; "FAIL (execution failed)"].
Proof. reflexivity. Qed.

(** *** The response matcher (C6) *)

Lemma evaluateResponse_prefix (pre post actual : list string) :
  ellipsis ∉ pre ->
  evaluateResponse (pre ++ ellipsis :: post) actual = true <->
  exists tail, actual = pre ++ tail.
Proof.
  revert actual. induction pre as [|p pre IH]; intros actual Hpre; simpl.
  - split; [eauto|reflexivity].
  - apply not_elem_of_cons in Hpre as [Hne Hpre].
    assert (Hp : String.eqb p ellipsis = false) by (apply String.eqb_neq; congruence).
    rewrite Hp. destruct actual as [|a actual].
    + split; [discriminate|]. intros [tail Htail]. discriminate.
    + rewrite andb_true_iff, String.eqb_eq, (IH actual Hpre). split.
      * intros [-> [tail ->]]. eauto.
      * intros [tail Htail]. inversion Htail; subst. eauto.
Qed.

(** C6. An expected line [...] is a wildcard for the rest of the output:
    when it stands behind the lines [pre] (none of them [...]), the actual
    output matches exactly when it begins with [pre]; nothing is asked of
    what follows, and nothing at all when [pre] is empty.  The three
    instances of the ellipsis law hold. *)
Theorem evaluateResponse_ellipsis :
  (forall pre post actual : list string,
      ellipsis ∉ pre ->
      evaluateResponse (pre ++ ellipsis :: post) actual = true <->
      exists tail, actual = pre ++ tail)
  /\ (forall post actual : list string, evaluateResponse (ellipsis :: post) actual = true)
  /\ evaluateResponse ["X"; "..."] ["X"; "Y"; "Z"] = true
  /\ evaluateResponse ["..."] [] = true
  /\ evaluateResponse ["X"; "..."] ["Q"] = false.
Proof.
  split; [exact evaluateResponse_prefix|].
  split; [reflexivity|]. repeat split; reflexivity.
Qed.

Lemma evaluateResponse_ellipsis_witness :
  evaluateResponse (["hello"; "world"] ++ ellipsis :: ["ignored"])
    ["hello"; "world"; "and"; "more"] = true.
Proof.
  destruct evaluateResponse_ellipsis as [Hlaw _].
  apply (Hlaw ["hello"; "world"] ["ignored"] ["hello"; "world"; "and"; "more"]).
  - intros Hin. repeat (apply elem_of_cons in Hin as [Hin|Hin]; [discriminate Hin|]).
    inversion Hin.
  - exists ["and"; "more"]. reflexivity.
Defined.

(** *** Code blocks (C7) *)

Lemma collect_orphans caption language attributes (orphans ls : list string) :
  Forall (fun l => prompt l = None) orphans ->
  collect caption language attributes None (orphans ++ ls) =
  collect caption language attributes None ls.
Proof.
  induction 1 as [|l orphans Hl _ IH]; simpl; [reflexivity|].
  rewrite Hl. exact IH.
Qed.

Lemma collect_responses caption language attributes (resp ls : list string) :
  forall i,
    Forall (fun l => prompt l = None) resp ->
    collect caption language attributes (Some i) (resp ++ ls) =
    collect caption language attributes
      (Some (mkInteraction (Cmd i) (Caption i) (Language i) (Attributes i)
               (Response i ++ resp) (Output i) (ExitCode i) (ResultCode i))) ls.
Proof.
  induction resp as [|l resp IH]; intros i Hresp; simpl.
  - rewrite app_nil_r. destruct i; reflexivity.
  - inversion Hresp as [|? ? Hl Hresp']; subst. rewrite Hl, IH by assumption.
    simpl. rewrite <- app_assoc. reflexivity.
Qed.

Lemma collect_exchanges caption language attributes (xs : list Exchange) :
  forall current,
    Forall well_formed xs ->
    collect caption language attributes current (concat (map exchange_lines xs)) =
    flush current ++ map (extracted caption language attributes) xs.
Proof.
  induction xs as [|x xs IH]; intros current Hxs; simpl.
  - rewrite app_nil_r. reflexivity.
  - inversion Hxs as [|? ? [Hprompt Hresp] Hxs']; subst.
    rewrite Hprompt. f_equal.
    rewrite collect_responses by assumption. rewrite IH by assumption.
    reflexivity.
Qed.

(** C7. A code block is cut into interactions at its prompt lines.  The
    block [$ echo A] / [A] gives the one interaction with command [echo A]
    and expected response [A].  In general the lines in front of the first
    prompt are dropped, and every prompt line after them starts an
    interaction of its own, in order, whose response is made of the lines
    up to the next prompt. *)
Theorem collect_code_block (caption language : string) (attributes : gmap string string) :
  codeBlock caption ("$ echo A" +:+ nl +:+ "A" +:+ nl) EmptyString =
    [mkInteraction "echo A" caption EmptyString ∅ ["A"] [] 0 NewInteraction]
  /\ forall (orphans : list string) (xs : list Exchange),
      Forall (fun l => prompt l = None) orphans ->
      Forall well_formed xs ->
      collect caption language attributes None
        (orphans ++ concat (map exchange_lines xs)) =
      map (extracted caption language attributes) xs.
Proof.
  split; [reflexivity|]. intros orphans xs Horphans Hxs.
  rewrite collect_orphans by assumption.
  rewrite collect_exchanges by assumption. reflexivity.
Qed.

Lemma collect_code_block_witness :
  collect "caption" "shell" ∅ None
    (["orphan response line"; "another"] ++
     concat (map exchange_lines
               [mkExchange "$ echo one" "echo one" ["one"];
                mkExchange ">  echo two " "echo two" ["two"; "2"]])) =
  [mkInteraction "echo one" "caption" "shell" ∅ ["one"] [] 0 NewInteraction;
   mkInteraction "echo two" "caption" "shell" ∅ ["two"; "2"] [] 0 NewInteraction].
Proof.
  destruct (collect_code_block "caption" "shell" ∅) as [_ Hblocks].
  apply (Hblocks ["orphan response line"; "another"]
           [mkExchange "$ echo one" "echo one" ["one"];
            mkExchange ">  echo two " "echo two" ["two"; "2"]]).
  - repeat (constructor; [vm_compute; reflexivity|]). constructor.
  - repeat (constructor;
            [split; [vm_compute; reflexivity
                    |repeat (constructor; [vm_compute; reflexivity|]); constructor]|]).
    constructor.
Defined.

(** *** Info strings (C8) *)

Lemma strip_prefix_refl (p s : string) : strip_prefix p (p +:+ s) = Some s.
Proof. induction p as [|a p IH]; simpl; [reflexivity|]. rewrite Ascii.eqb_refl. exact IH. Qed.

Lemma cut_first (c : ascii) (before after : string) :
  contains_char c before = false ->
  cut c (before +:+ String c after) = Some (before, after).
Proof.
  induction before as [|a before IH]; simpl; intros Hc.
  - rewrite Ascii.eqb_refl. reflexivity.
  - apply orb_false_iff in Hc as [Ha Hc]. rewrite Ha, (IH Hc). reflexivity.
Qed.

Lemma cut_none (c : ascii) (s : string) :
  contains_char c s = false -> cut c s = None.
Proof.
  induction s as [|a s IH]; simpl; intros Hc; [reflexivity|].
  apply orb_false_iff in Hc as [Ha Hc]. rewrite Ha, (IH Hc). reflexivity.
Qed.

Lemma rev_app_rev_app (s a b : string) :
  String.rev_app (String.rev_app s a) b = String.rev_app a (s +:+ b).
Proof.
  revert a b. induction s as [|c s IH]; intros a b; simpl; [reflexivity|].
  rewrite IH. reflexivity.
Qed.

Lemma append_empty_r (s : string) : s +:+ EmptyString = s.
Proof.
  induction s as [|c s IH]; [reflexivity|].
  change (String c (s +:+ EmptyString) = String c s). rewrite IH. reflexivity.
Qed.

Lemma rev_involutive (s : string) : String.rev (String.rev s) = s.
Proof. unfold String.rev. rewrite rev_app_rev_app. simpl. apply append_empty_r. Qed.

Lemma rev_app_append (s1 s2 acc : string) :
  String.rev_app (s1 +:+ s2) acc = String.rev_app s2 (String.rev_app s1 acc).
Proof.
  revert acc. induction s1 as [|c s1 IH]; intros acc; simpl; [reflexivity|].
  apply IH.
Qed.

Lemma strip_closing_brace_append (body : string) :
  strip_closing_brace (body +:+ "}") = Some body.
Proof.
  unfold strip_closing_brace, String.rev. rewrite rev_app_append. simpl.
  change (String.rev_app (String.rev_app body EmptyString) EmptyString)
    with (String.rev (String.rev body)).
  rewrite rev_involutive. reflexivity.
Qed.

Lemma add_attribute_lookup (m : gmap string string) (token k : string) :
  add_attribute m token !! k =
  if decide (fst (key_value token) = k)
  then (if HasPrefix k shelldocPrefix then Some (snd (key_value token)) else m !! k)
  else m !! k.
Proof.
  unfold add_attribute. destruct (decide (fst (key_value token) = k)) as [Heq|Hne].
  - rewrite Heq. destruct (HasPrefix k shelldocPrefix); [|reflexivity].
    apply lookup_insert_eq.
  - destruct (HasPrefix (fst (key_value token)) shelldocPrefix); [|reflexivity].
    apply lookup_insert_ne. exact Hne.
Qed.

Lemma fold_add_attribute (k : string) (tokens : list string) :
  forall m : gmap string string,
    fold_left add_attribute tokens m !! k =
    if HasPrefix k shelldocPrefix
    then match last_value k (map key_value tokens) with
         | Some v => Some v
         | None => m !! k
         end
    else m !! k.
Proof.
  unfold last_value.
  induction tokens as [|token tokens IH]; intros m; simpl.
  - destruct (HasPrefix k shelldocPrefix); reflexivity.
  - rewrite IH, add_attribute_lookup. clear IH.
    destruct (decide (fst (key_value token) = k)) as [Heq|Hne].
    + rewrite filter_cons_True by exact Heq. rewrite last_cons.
      destruct (HasPrefix k shelldocPrefix); [|reflexivity].
      destruct (last (filter (fun kv => fst kv = k) (map key_value tokens)));
        reflexivity.
    + rewrite filter_cons_False by exact Hne. reflexivity.
Qed.

(** The claim as it stands fails on the info string [bash]: its leading
    word is [bash], the language read from it is empty. *)
Lemma parseCodeBlockInfoString_language_only :
  first_word "bash" = "bash" /\
  fst (parseCodeBlockInfoString "bash") = EmptyString /\
  fst (parseCodeBlockInfoString "bash") ≠ first_word "bash".
Proof. repeat split. vm_compute. discriminate. Qed.

Lemma string_append_assoc (a b c : string) : (a +:+ b) +:+ c = a +:+ (b +:+ c).
Proof.
  induction a as [|x a IH]; [reflexivity|].
  change (String x ((a +:+ b) +:+ c) = String x (a +:+ (b +:+ c))).
  rewrite IH. reflexivity.
Qed.

Lemma rev_app_as_append (s acc : string) :
  String.rev_app s acc = String.rev s +:+ acc.
Proof.
  unfold String.rev. revert acc. induction s as [|c s IH]; intros acc; [reflexivity|].
  simpl. rewrite (IH (String c acc)), (IH (String c EmptyString)).
  rewrite string_append_assoc. reflexivity.
Qed.

Lemma rev_of_append (a b : string) :
  String.rev (a +:+ b) = String.rev b +:+ String.rev a.
Proof.
  unfold String.rev at 1. rewrite rev_app_append.
  change (String.rev_app a EmptyString) with (String.rev a).
  apply rev_app_as_append.
Qed.

Lemma rev_closing_brace (s : string) :
  String.rev (s +:+ "}") = String "}" (String.rev s).
Proof. rewrite rev_of_append. reflexivity. Qed.

Lemma rev_begins_with (c : ascii) (s r : string) :
  String.rev s = String c r -> s = String.rev r +:+ String c EmptyString.
Proof.
  intros Hrev. rewrite <- (rev_involutive s), Hrev.
  unfold String.rev at 1. simpl. apply rev_app_as_append.
Qed.

Lemma closing_brace_first (s : string) :
  match s with String "}" _ => true | _ => false end = true ->
  exists r, s = String "}" r.
Proof.
  destruct s as [|c r]; [discriminate|]. intros Hc. exists r.
  destruct c as [[] [] [] [] [] [] [] []]; try discriminate Hc. reflexivity.
Qed.

Lemma strip_closing_brace_Some (s body : string) :
  strip_closing_brace s = Some body -> s = body +:+ "}".
Proof.
  unfold strip_closing_brace. intros Hs.
  destruct (String.rev s) as [|c r] eqn:Hrev; [discriminate|].
  destruct c as [[] [] [] [] [] [] [] []]; try discriminate Hs.
  injection Hs as <-. exact (rev_begins_with _ _ _ Hrev).
Qed.

Lemma contains_char_append (c : ascii) (a b : string) :
  contains_char c (a +:+ b) = contains_char c a || contains_char c b.
Proof.
  induction a as [|x a IH]; [reflexivity|].
  change (Ascii.eqb x c || contains_char c (a +:+ b) =
          Ascii.eqb x c || contains_char c a || contains_char c b).
  rewrite IH, orb_assoc. reflexivity.
Qed.

Lemma cut_Some (c : ascii) (s before after : string) :
  cut c s = Some (before, after) ->
  s = before +:+ String c after /\ contains_char c before = false.
Proof.
  revert before. induction s as [|a s IH]; intros before; simpl; [discriminate|].
  destruct (Ascii.eqb a c) eqn:Ha.
  - intros [= <- <-]. apply Ascii.eqb_eq in Ha as ->. split; reflexivity.
  - destruct (cut c s) as [[b0 a0]|]; [|discriminate]. intros [= <- <-].
    destruct (IH b0 eq_refl) as [-> Hb]. split; [reflexivity|].
    simpl. rewrite Ha. exact Hb.
Qed.

Lemma cut_is_Some (c : ascii) (s : string) :
  contains_char c s = true -> exists before after, cut c s = Some (before, after).
Proof.
  induction s as [|a s IH]; simpl; [discriminate|].
  destruct (Ascii.eqb a c); [eauto|]. simpl. intros Hc.
  destruct (IH Hc) as (before & after & ->). eauto.
Qed.

(** The two readings of a brace-delimited suffix agree: an opening brace
    and a last character that is a closing brace, or [head{body}], where
    [head] can be taken as the text before the first opening brace. *)
Lemma has_brace_suffix_intro (head body : string) :
  has_brace_suffix (head +:+ "{" +:+ body +:+ "}") = true.
Proof.
  unfold has_brace_suffix. apply andb_true_iff. split.
  - rewrite contains_char_append. apply orb_true_iff. right. reflexivity.
  - rewrite <- (string_append_assoc "{" body "}").
    rewrite <- (string_append_assoc head ("{" +:+ body) "}").
    rewrite rev_closing_brace. reflexivity.
Qed.

Lemma has_brace_suffix_elim (infostring : string) :
  has_brace_suffix infostring = true ->
  exists head body,
    infostring = head +:+ "{" +:+ body +:+ "}" /\ contains_char "{" head = false.
Proof.
  unfold has_brace_suffix. intros [Hopen Hclose]%andb_true_iff.
  apply closing_brace_first in Hclose as [r Hrev].
  destruct (cut_is_Some _ _ Hopen) as (head & tail & Hcut).
  apply cut_Some in Hcut as [Hinfo Hhead].
  exists head. rewrite Hinfo in Hrev.
  change (head +:+ String "{" tail) with (head +:+ ("{" +:+ tail)) in Hrev.
  rewrite rev_of_append, rev_of_append in Hrev.
  destruct (String.rev tail) as [|c r'] eqn:Htail.
  - discriminate Hrev.
  - injection Hrev as -> _. apply rev_begins_with in Htail.
    exists (String.rev r'). split; [|exact Hhead].
    rewrite Hinfo, Htail. reflexivity.
Qed.

Lemma is_space_not_brace (c : ascii) : is_space c = true -> Ascii.eqb c "{" = false.
Proof.
  intros Hc. destruct (Ascii.eqb_spec c "{") as [->|]; [|reflexivity].
  vm_compute in Hc. discriminate Hc.
Qed.

Lemma contains_char_spaces (s : string) :
  all_chars is_space s = true -> contains_char "{" s = false.
Proof.
  induction s as [|c s IH]; [reflexivity|]. simpl.
  intros [Hc Hs]%andb_true_iff. rewrite (is_space_not_brace _ Hc), (IH Hs). reflexivity.
Qed.

Lemma contains_char_word (s : string) :
  all_chars (fun c => negb (is_space c) && negb (Ascii.eqb c "{")) s = true ->
  contains_char "{" s = false.
Proof.
  induction s as [|c s IH]; [reflexivity|]. simpl.
  intros [[_ Hc]%andb_true_iff Hs]%andb_true_iff.
  apply negb_true_iff in Hc. rewrite Hc, (IH Hs). reflexivity.
Qed.

Lemma fields_go_word (w cur s : string) :
  all_chars (fun c => negb (is_space c) && negb (Ascii.eqb c "{")) w = true ->
  fields_go cur (w +:+ s) = fields_go (String.rev_app w cur) s.
Proof.
  revert cur. induction w as [|c w IH]; intros cur; [reflexivity|]. simpl.
  intros [[Hc _]%andb_true_iff Hw]%andb_true_iff.
  apply negb_true_iff in Hc. rewrite Hc. apply IH. exact Hw.
Qed.

Lemma fields_go_spaces (s : string) :
  all_chars is_space s = true -> fields_go EmptyString s = [].
Proof.
  induction s as [|c s IH]; [reflexivity|]. simpl.
  intros [Hc Hs]%andb_true_iff. rewrite Hc. apply IH. exact Hs.
Qed.

Lemma fields_go_last (cur s : string) :
  cur ≠ EmptyString -> all_chars is_space s = true ->
  fields_go cur s = [String.rev cur].
Proof.
  intros Hcur Hs. destruct cur as [|x cur]; [congruence|].
  destruct s as [|c s]; [reflexivity|]. simpl in Hs |- *.
  apply andb_true_iff in Hs as [Hc Hs]. rewrite Hc, (fields_go_spaces _ Hs). reflexivity.
Qed.

Lemma first_word_word (lang spaces : string) :
  is_word lang = true -> all_chars is_space spaces = true ->
  first_word (lang +:+ spaces) = lang.
Proof.
  unfold is_word. intros [Hne Hlang]%andb_true_iff Hspaces.
  apply negb_true_iff, String.eqb_neq in Hne.
  unfold first_word, Fields. rewrite (fields_go_word _ _ _ Hlang).
  change (String.rev_app lang EmptyString) with (String.rev lang).
  rewrite fields_go_last; [apply rev_involutive| |exact Hspaces].
  intros Hrev. apply Hne. rewrite <- (rev_involutive lang), Hrev. reflexivity.
Qed.

Lemma parseCodeBlockInfoString_suffix (head body : string) :
  contains_char "{" head = false ->
  parseCodeBlockInfoString (head +:+ "{" +:+ body +:+ "}") =
    (first_word head, parse_attributes body).
Proof.
  intros Hhead. unfold parseCodeBlockInfoString.
  change (head +:+ "{" +:+ body +:+ "}") with (head +:+ String "{" (body +:+ "}")).
  rewrite (cut_first _ _ _ Hhead), strip_closing_brace_append. reflexivity.
Qed.

(** C8, amended.  An info string has a brace-delimited suffix when it
    holds an opening brace and ends in a closing brace; it is then
    [head{body}], with [head] the text before its first opening brace.
    Such an info string gives the leading word of [head] as language, so
    the word [lang] for [lang{body}] and for [lang {body}], and as
    attributes the tokens [key=value] and [key] of [body] whose key begins
    with [shelldoc]: other keys are not in the map, and a key that comes
    several times has the value of its last token.  Every other info
    string, be it without an opening brace as [bash] or without the
    closing brace at its end as [bash {x], gives the empty language and no
    attribute. *)
Theorem parseCodeBlockInfoString_braces :
  (forall infostring : string,
      (has_brace_suffix infostring = true ->
       exists head body,
         infostring = head +:+ "{" +:+ body +:+ "}" /\ contains_char "{" head = false)
      /\ ((exists head body, infostring = head +:+ "{" +:+ body +:+ "}") ->
          has_brace_suffix infostring = true))
  /\ (forall head body : string,
      contains_char "{" head = false ->
      parseCodeBlockInfoString (head +:+ "{" +:+ body +:+ "}") =
        (first_word head, parse_attributes body)
      /\ forall k : string,
          snd (parseCodeBlockInfoString (head +:+ "{" +:+ body +:+ "}")) !! k =
          if HasPrefix k shelldocPrefix
          then last_value k (map key_value (Fields body))
          else None)
  /\ (forall lang spaces body : string,
      is_word lang = true ->
      all_chars is_space spaces = true ->
      fst (parseCodeBlockInfoString (lang +:+ spaces +:+ "{" +:+ body +:+ "}")) = lang)
  /\ (forall infostring : string,
      has_brace_suffix infostring = false ->
      parseCodeBlockInfoString infostring = (EmptyString, ∅)).
Proof.
  split_and!.
  - intros infostring. split.
    + apply has_brace_suffix_elim.
    + intros (head & body & ->). apply has_brace_suffix_intro.
  - intros head body Hhead.
    pose proof (parseCodeBlockInfoString_suffix head body Hhead) as Hparse.
    split; [exact Hparse|]. intros k. rewrite Hparse. simpl.
    unfold parse_attributes. rewrite fold_add_attribute, lookup_empty.
    destruct (HasPrefix k shelldocPrefix); [|reflexivity].
    destruct (last_value k (map key_value (Fields body))); reflexivity.
  - intros lang spaces body Hlang Hspaces.
    rewrite <- (string_append_assoc lang spaces).
    rewrite parseCodeBlockInfoString_suffix.
    + simpl. apply first_word_word; assumption.
    + rewrite contains_char_append, (contains_char_spaces _ Hspaces), orb_false_r.
      apply contains_char_word. unfold is_word in Hlang.
      apply andb_true_iff in Hlang as [_ Hlang]. exact Hlang.
  - intros infostring Hnone. unfold parseCodeBlockInfoString.
    destruct (cut "{" infostring) as [[head tail]|] eqn:Hcut; [|reflexivity].
    destruct (strip_closing_brace tail) as [body|] eqn:Htail; [|reflexivity].
    apply cut_Some in Hcut as [-> _]. apply strip_closing_brace_Some in Htail as ->.
    change (head +:+ String "{" (body +:+ "}")) with (head +:+ "{" +:+ body +:+ "}") in Hnone.
    rewrite has_brace_suffix_intro in Hnone. discriminate Hnone.
Qed.

Lemma parseCodeBlockInfoString_braces_witness :
  fst (parseCodeBlockInfoString
         "shell {.class other=value shelldocexitcode=2 shelldocwhatever shelldocexitcode=3}") =
    "shell"
  /\ snd (parseCodeBlockInfoString
         "shell {.class other=value shelldocexitcode=2 shelldocwhatever shelldocexitcode=3}")
       !! "shelldocexitcode" = Some "3"
  /\ snd (parseCodeBlockInfoString
         "shell {.class other=value shelldocexitcode=2 shelldocwhatever shelldocexitcode=3}")
       !! "shelldocwhatever" = Some EmptyString
  /\ snd (parseCodeBlockInfoString
         "shell {.class other=value shelldocexitcode=2 shelldocwhatever shelldocexitcode=3}")
       !! "other" = None
  /\ snd (parseCodeBlockInfoString
         "shell {.class other=value shelldocexitcode=2 shelldocwhatever shelldocexitcode=3}")
       !! ".class" = None
  /\ has_brace_suffix "bash {x" = false
  /\ parseCodeBlockInfoString "bash {x" = (EmptyString, ∅)
  /\ parseCodeBlockInfoString "bash" = (EmptyString, ∅).
Proof.
  destruct parseCodeBlockInfoString_braces as (_ & Hbraces & Hlang & Hplain).
  destruct (Hbraces "shell "
              ".class other=value shelldocexitcode=2 shelldocwhatever shelldocexitcode=3"
              eq_refl) as [_ Hattrs].
  split_and!.
  - exact (Hlang "shell" " "
             ".class other=value shelldocexitcode=2 shelldocwhatever shelldocexitcode=3"
             eq_refl eq_refl).
  - etransitivity; [exact (Hattrs "shelldocexitcode")|vm_compute; reflexivity].
  - etransitivity; [exact (Hattrs "shelldocwhatever")|vm_compute; reflexivity].
  - etransitivity; [exact (Hattrs "other")|vm_compute; reflexivity].
  - etransitivity; [exact (Hattrs ".class")|vm_compute; reflexivity].
  - reflexivity.
  - apply (Hplain "bash {x"). reflexivity.
  - apply (Hplain "bash"). reflexivity.
Defined.

End tokenizer_facts.

(** * Properties of the coordinator *)

Module run_facts.
Import strutil shell tokenizer junitxml run examples shell_facts.

Section Coordinator.

Variable classify : Interaction -> list string -> Z -> ResultState.
Variable DescribeFull : Interaction -> string.

Lemma Done_spec (ctx : Context) (t : N) :
  Done ctx t = true <-> exists c, doneAt ctx = Some c /\ (c <= t)%N.
Proof.
  unfold Done. destruct (doneAt ctx) as [c|].
  - rewrite N.leb_le. split; [eauto|]. intros (c' & [= <-] & Hle). exact Hle.
  - split; [discriminate|]. intros (c & Hc & _). discriminate.
Qed.

Lemma Done_false (ctx : Context) (t : N) :
  (forall c, doneAt ctx = Some c -> (t < c)%N) -> Done ctx t = false.
Proof.
  intros Hlater. unfold Done. destruct (doneAt ctx) as [c|]; [|reflexivity].
  specialize (Hlater c eq_refl). apply N.leb_gt. exact Hlater.
Qed.

(** The loop does not touch the state of the process. *)
Lemma interaction_loop_cmd runCtx ctx sched inputfile (todo : list Interaction) :
  forall index st st' rest,
    interaction_loop classify DescribeFull runCtx ctx sched inputfile index st todo =
      Some (st', rest) ->
    cmd (session st') = cmd (session st).
Proof.
  induction todo as [|i todo IH]; intros index st st' rest; simpl.
  - intros [= <- _]. reflexivity.
  - destruct (Done ctx (now st)); [intros [= <- _]; reflexivity|].
    unfold performTestCase, Execute.
    destruct (ExecuteCommand ctx (sched index) (now st) (session st) (Cmd i)
                (Timeout runCtx)) as [[[t sh'] [[out code] e]]|] eqn:Hexec;
      [|discriminate].
    assert (Hcmd : cmd sh' = cmd (session st)).
    { apply ExecuteCommand_inv in Hexec.
      destruct Hexec as [(? & ? & ? & _ & _ & -> & _)
                        |[(_ & _ & -> & _)|(? & _ & _ & -> & _)]]; reflexivity. }
    destruct e as [e|].
    + destruct (stops runCtx _ _).
      * intros [= <- _]. exact Hcmd.
      * intros Hloop. apply IH in Hloop. simpl in Hloop. congruence.
    + destruct (stops runCtx _ _).
      * intros [= <- _]. exact Hcmd.
      * intros Hloop. apply IH in Hloop. simpl in Hloop. congruence.
Qed.

(** Every session that [performInteractions] started is asked to exit;
    none is killed. *)
Lemma performInteractions_exits runCtx ctx sched env t0 inputfile o sh :
  performInteractions classify DescribeFull runCtx ctx sched env t0 inputfile = Some o ->
  final_session o = Some sh ->
  cmd sh = ExitRequested.
Proof.
  unfold performInteractions.
  destruct (document env) as [todo|]; [|intros [= <-]; discriminate].
  destruct (DryRun runCtx); [intros [= <-]; discriminate|].
  destruct (started env) as [out|]; [|intros [= <-]; discriminate].
  destruct (interaction_loop _ _ _ _ _ _ _ _ _) as [[st rest]|]; [|discriminate].
  intros [= <-]. simpl. intros [= <-]. reflexivity.
Qed.

(** *** Errors of the call (C3, C4) *)

(** One turn of the loop for an interaction whose execution fails. *)
Lemma interaction_loop_error runCtx ctx sched inputfile index st i todo t sh out code e :
  Done ctx (now st) = false ->
  ExecuteCommand ctx (sched index) (now st) (session st) (Cmd i) (Timeout runCtx) =
    Some (t, sh, (out, code, Some e)) ->
  interaction_loop classify DescribeFull runCtx ctx sched inputfile index st (i :: todo) =
  if bool_decide (e = ErrCancelled) || bool_decide (e = ErrTimeout)
  then Some (print_summary false (after_error runCtx inputfile st t sh i e), todo)
  else interaction_loop classify DescribeFull runCtx ctx sched inputfile (S index)
         (after_error runCtx inputfile st t sh i e) todo.
Proof.
  intros Hdone Hexec. simpl. rewrite Hdone.
  unfold performTestCase, Execute. rewrite Hexec.
  unfold stops, record_result. simpl. rewrite orb_false_r.
  destruct e; reflexivity.
Qed.

(** After a timeout the interaction is marked, the loop ends and the other
    interactions are not attempted. *)
Lemma timeout_ends_loop runCtx ctx sched inputfile index st i todo t sh out code :
  Done ctx (now st) = false ->
  ExecuteCommand ctx (sched index) (now st) (session st) (Cmd i) (Timeout runCtx) =
    Some (t, sh, (out, code, Some ErrTimeout)) ->
  interaction_loop classify DescribeFull runCtx ctx sched inputfile index st (i :: todo) =
  Some (print_summary false (after_error runCtx inputfile st t sh i ErrTimeout), todo).
Proof.
  intros Hdone Hexec.
  rewrite (interaction_loop_error _ _ _ _ _ _ _ _ _ _ _ _ _ Hdone Hexec). reflexivity.
Qed.

(** C4, amended.  When the scan finds, after the begin marker, a line that
    the end pattern matches with a token that is not an integer, and
    neither the timer nor a cancellation comes before, the call returns
    the error of the exit code (no output, exit code -1); the interaction
    is marked as an execution error and registered as an error of the
    suite; and the loop goes on with the next interaction on what is left
    of the stream. *)
Theorem protocol_error_continues (runCtx : RunContext) (ctx : Context)
    (sched : nat -> nat) (inputfile : string) (index : nat) (st : State)
    (i : Interaction) (todo : list Interaction) (pre body : list (N * string))
    (d_begin d_end : N) (end_line token : string) (rest : Stdout) :
  let d := (total_delay pre + d_begin + total_delay body + d_end)%N in
  let sh :=
    mkShell (stdin (session st) ++ [begin_statement; command_statement (Cmd i)]) rest
      (cmd (session st)) (abandoned_scan (session st)) in
  stdout (session st) =
    feed pre (Line d_begin beginMarker (feed body (Line d_end end_line rest))) ->
  Forall (fun l => snd l ≠ beginMarker) pre ->
  Forall (fun l => endRx_FindStringSubmatch (snd l) = None) body ->
  endRx_FindStringSubmatch end_line = Some token ->
  Atoi token = None ->
  (0 < Timeout runCtx -> (d < Z.to_N (Timeout runCtx))%N) ->
  (forall c, doneAt ctx = Some c -> (now st + d < c)%N) ->
  ExecuteCommand ctx (sched index) (now st) (session st) (Cmd i) (Timeout runCtx) =
    Some ((now st + d)%N, sh, ([], -1, Some (ErrExitCode token)))
  /\ interaction_loop classify DescribeFull runCtx ctx sched inputfile index st (i :: todo) =
     interaction_loop classify DescribeFull runCtx ctx sched inputfile (S index)
       (after_error runCtx inputfile st (now st + d)%N sh i (ErrExitCode token)) todo.
Proof.
  intros d sh Hout Hpre Hbody Hend Hatoi Htimer Hctx.
  pose proof (scan_framed _ _ d_begin d_end _ _ rest Hpre Hbody Hend) as Hscan.
  rewrite <- Hout, Hatoi in Hscan.
  pose proof (ExecuteCommand_scan_first ctx (sched index) (now st) (session st) (Cmd i)
                (Timeout runCtx) _ _ _ Hscan Htimer Hctx) as Hexec.
  simpl in Hexec. split; [exact Hexec|].
  assert (Hdone : Done ctx (now st) = false).
  { apply Done_false. intros c Hc. specialize (Hctx c Hc). lia. }
  rewrite (interaction_loop_error runCtx ctx sched inputfile index st i todo _ _ _ _ _
             Hdone Hexec).
  reflexivity.
Qed.

(** *** Cancellation (C5) *)

(** C5. When the context is done at the moment the loop is about to start
    an interaction, the loop ends there: the interaction and those after
    it are left as they are and nothing is written to the session; suite,
    return codes and the interactions already visited are kept, and the
    summary line is printed from them with the mark of a cancelled run.
    When the cancellation ends the execution of an interaction, that one
    is recorded as an error, the summary is printed and the remaining
    interactions are not attempted.  And a call of [ExecuteCommand] under
    a context that is already done returns [ErrCancelled] at once,
    provided the answer of the subprocess is not there already at that
    very moment. *)
Theorem cancellation_checked_first (runCtx : RunContext) (ctx : Context)
    (sched : nat -> nat) (inputfile : string) :
  (forall (index : nat) (st : State) (i : Interaction) (todo : list Interaction),
      Done ctx (now st) = true ->
      interaction_loop classify DescribeFull runCtx ctx sched inputfile index st (i :: todo) =
      Some (mkState (now st) (session st) (suite st) (returnCodes st) (visited st)
              (printed st ++
               [mkSummary true (TestCount (suite st)) (SuccessCount (suite st))
                  (FailureCount (suite st)) (ErrorCount (suite st))]),
            i :: todo))
  /\ (forall (index : nat) (st : State) (i : Interaction) (todo : list Interaction)
        (t : N) (sh : Shell) (out : list string) (code : Z),
      Done ctx (now st) = false ->
      ExecuteCommand ctx (sched index) (now st) (session st) (Cmd i) (Timeout runCtx) =
        Some (t, sh, (out, code, Some ErrCancelled)) ->
      interaction_loop classify DescribeFull runCtx ctx sched inputfile index st (i :: todo) =
      Some (print_summary false (after_error runCtx inputfile st t sh i ErrCancelled), todo))
  /\ (forall (t0 : N) (pick : nat) (sh : Shell) (command : string) (timeout : Z),
      Done ctx t0 = true ->
      (forall r rest, scan (stdout sh) ≠ Some (0%N, r, rest)) ->
      ExecuteCommand ctx pick t0 sh command timeout =
      Some (t0,
            mkShell (stdin sh ++ [begin_statement; command_statement command])
              (stdout sh) (cmd sh) true,
            ([], -1, Some ErrCancelled))).
Proof.
  split; [|split].
  - intros index st i todo Hdone. simpl. rewrite Hdone. reflexivity.
  - intros index st i todo t sh out code Hdone Hexec.
    rewrite (interaction_loop_error _ _ _ _ _ _ _ _ _ _ _ _ _ Hdone Hexec). reflexivity.
  - intros t0 pick sh command timeout Hdone Hbusy.
    apply Done_spec in Hdone as (c & Hc & Hle).
    rewrite (ExecuteCommand_done_first ctx pick t0 sh command timeout c Hc).
    + rewrite N.max_r by exact Hle. reflexivity.
    + intros d r rest Hscan. destruct (N.eq_dec d 0%N) as [->|Hd].
      * destruct (Hbusy _ _ Hscan).
      * lia.
    + intros Hpos. lia.
Qed.

End Coordinator.

(** *** Examples *)

(** C3.  The run of [slow_document]: the first interaction times out and is
    marked as an execution error, the second one is not attempted; the
    session, however, is not killed: the deferred [Exit] writes [exit] to
    it and waits for it. *)
Theorem timeout_run_exits_session
    (classify : Interaction -> list string -> Z -> ResultState)
    (DescribeFull : Interaction -> string) (sched : nat -> nat) :
  exists o sh,
    slow_run classify DescribeFull sched = Some o /\
    map ResultCode (interactions o) = [ResultExecutionError; NewInteraction] /\
    map Error (TestCases (suite_of o)) =
      [Some (mkMessage "ERROR" "ERROR (result not evaluated)" ErrTimeout)] /\
    final_session o = Some sh /\
    stdin sh = [begin_statement; command_statement "sleep 10"; "exit" +:+ nl] /\
    cmd sh = ExitRequested /\
    cmd sh ≠ Killed.
Proof.
  eexists _, _. split; [unfold slow_run; vm_compute; reflexivity|].
  simpl. split; [reflexivity|]. split; [reflexivity|]. split; [reflexivity|].
  simpl. split; [reflexivity|]. split; [reflexivity|discriminate].
Qed.

(** The claim C4 as it stands fails on [garbled_run]: the first execution
    returns the error of the exit code, and the second interaction is
    executed all the same: its command is written to the session, its
    output is read and matched. *)
Lemma protocol_error_run_goes_on :
  (fun o => map ResultCode (interactions o)) <$> garbled_run =
    Some [ResultExecutionError; ResultMatch]
  /\ (fun o => map Output (interactions o)) <$> garbled_run = Some [[]; ["world"]]
  /\ (fun o => map Error (TestCases (suite_of o))) <$> garbled_run =
    Some [Some (mkMessage "ERROR" "ERROR (result not evaluated)" (ErrExitCode "abc")); None]
  /\ (fun o => stdin <$> final_session o) <$> garbled_run =
    Some (Some [begin_statement;
                command_statement ("echo '" +:+ endMarker +:+ " abc'");
                begin_statement;
                command_statement "echo world";
                "exit" +:+ nl]).
Proof. repeat split; vm_compute; reflexivity. Qed.

Lemma protocol_error_continues_witness :
  let runCtx := mkRunContext false false false 0 in
  let first := interaction ("echo '" +:+ endMarker +:+ " abc'") [] in
  let sh :=
    mkShell [begin_statement; command_statement (Cmd first)]
      (Line 1 (endMarker +:+ " 0")
         (Line 1 beginMarker (Line 1 "world" (Line 1 (endMarker +:+ " 0") Blocked))))
      Running false in
  ExecuteCommand Background 0 0 (session garbled_start) (Cmd first) 0 =
    Some (2%N, sh, ([], -1, Some (ErrExitCode "abc")))
  /\ interaction_loop by_output Cmd runCtx Background first_ready "README.md" 0
       garbled_start garbled_document =
     interaction_loop by_output Cmd runCtx Background first_ready "README.md" 1
       (after_error runCtx "README.md" garbled_start 2 sh first (ErrExitCode "abc"))
       [interaction "echo world" ["world"]].
Proof.
  intros runCtx first sh.
  apply (protocol_error_continues by_output Cmd runCtx Background first_ready "README.md"
           0 garbled_start first [interaction "echo world" ["world"]]
           [] [] 1 1 (endMarker +:+ " abc") "abc"
           (Line 1 (endMarker +:+ " 0")
              (Line 1 beginMarker (Line 1 "world" (Line 1 (endMarker +:+ " 0") Blocked))))).
  - reflexivity.
  - constructor.
  - constructor.
  - vm_compute. reflexivity.
  - vm_compute. reflexivity.
  - simpl. lia.
  - intros c Hc. discriminate Hc.
Defined.

(** The state [after_first] is the one in which the loop finds itself
    before the second interaction of such a run. *)
Lemma cancelled_run_reaches_after_first :
  interaction_loop by_output Cmd (mkRunContext false false false 0) (mkContext (Some 3%N))
    first_ready "README.md" 0
    (mkState 0 (mkShell [] polite_answer Running false) (mkSuite "README.md" 0 0 0 [])
       [] [] [])
    [interaction "echo hello" ["hello"]; interaction "echo world" ["world"]] =
  interaction_loop by_output Cmd (mkRunContext false false false 0) (mkContext (Some 3%N))
    first_ready "README.md" 1 after_first [interaction "echo world" ["world"]].
Proof. vm_compute. reflexivity. Qed.

Lemma cancellation_checked_first_witness :
  interaction_loop by_output Cmd (mkRunContext false false false 0) (mkContext (Some 3%N))
    first_ready "README.md" 1 after_first [interaction "echo world" ["world"]] =
    Some (mkState 3
            (mkShell [begin_statement; command_statement "echo hello"] Blocked Running false)
            (mkSuite "README.md" 1 0 0 [mkTestCase "README.md" "echo hello" None None])
            []
            [mkInteraction "echo hello" EmptyString EmptyString ∅ ["hello"] ["hello"] 0
               ResultMatch]
            [mkSummary true 1 1 0 0],
          [interaction "echo world" ["world"]])
  /\ interaction_loop by_output Cmd (mkRunContext false false false 0)
       (mkContext (Some 3%N)) first_ready "README.md" 0 slow_start
       [interaction "sleep 10" []; interaction "echo after" ["after"]] =
     Some (mkState 3
             (mkShell [begin_statement; command_statement "sleep 10"] Blocked Running true)
             (mkSuite "README.md" 1 0 1
                [mkTestCase "README.md" "sleep 10" None
                   (Some (mkMessage "ERROR" "ERROR (result not evaluated)" ErrCancelled))])
             [returnError]
             [mkInteraction "sleep 10" EmptyString EmptyString ∅ [] [] 0
                ResultExecutionError]
             [mkSummary false 1 0 0 1],
           [interaction "echo after" ["after"]])
  /\ ExecuteCommand (mkContext (Some 3%N)) 0 3 stalled_session "sleep 10" 100000000 =
     Some (3%N,
           mkShell [begin_statement; command_statement "sleep 10"] Blocked Running true,
           ([], -1, Some ErrCancelled)).
Proof.
  destruct (cancellation_checked_first by_output Cmd (mkRunContext false false false 0)
              (mkContext (Some 3%N)) first_ready "README.md")
    as (Hcheck & Hflight & Hcall).
  split; [|split].
  - apply (Hcheck 1%nat after_first (interaction "echo world" ["world"]) []).
    reflexivity.
  - apply (Hflight 0%nat slow_start (interaction "sleep 10" [])
             [interaction "echo after" ["after"]] 3%N
             (mkShell [begin_statement; command_statement "sleep 10"] Blocked Running true)
             [] (-1)).
    + reflexivity.
    + vm_compute. reflexivity.
  - apply (Hcall 3%N 0%nat stalled_session "sleep 10" 100000000).
    + reflexivity.
    + intros r rest Hscan. discriminate Hscan.
Defined.

End run_facts.

(** * Further properties of the shell package *)

Module shell_more.
Import strutil shell examples shell_facts.


(** *** DetectShell *)

(** [DetectShell] returns a path exactly when the path chosen (the one the
    user selected, or else the value of [$SHELL]) is not empty and [os.Stat]
    does not report it as missing: a selection wins over the environment,
    and a path that cannot be inspected for another reason is let through. *)
Theorem DetectShell_returns (host : Host) (selected path : string) :
  DetectShell host selected = inl path <->
  path = (if decide (selected = EmptyString) then SHELL host else selected) /\
  path ≠ EmptyString /\
  Stat host path ≠ StatNotExist.
Proof.
  unfold DetectShell.
  destruct selected as [|a selected]; simpl.
  - destruct (SHELL host) as [|b sh] eqn:Hsh; simpl.
    + split; [discriminate|]. intros (-> & Hne & _). congruence.
    + destruct (Stat host (String b sh)) eqn:Hstat; split;
        try discriminate; try (intros [= <-]; rewrite Hstat; repeat split; discriminate);
        try (intros (-> & _ & _); reflexivity).
      intros (-> & _ & Hst). congruence.
  - destruct (Stat host (String a selected)) eqn:Hstat; split;
      try discriminate; try (intros [= <-]; rewrite Hstat; repeat split; discriminate);
      try (intros (-> & _ & _); reflexivity).
    intros (-> & _ & Hst). congruence.
Qed.

(** The two errors of [DetectShell]: nothing to choose from, and a chosen
    path that does not exist. *)
Theorem DetectShell_fails (host : Host) (selected : string) (e : DetectError) :
  DetectShell host selected = inr e <->
  (selected = EmptyString /\ SHELL host = EmptyString /\ e = ErrNoShell)
  \/ (exists path,
        path = (if decide (selected = EmptyString) then SHELL host else selected) /\
        path ≠ EmptyString /\ Stat host path = StatNotExist /\
        e = ErrShellNotExist path).
Proof.
  unfold DetectShell.
  destruct selected as [|a selected]; simpl.
  - destruct (SHELL host) as [|b sh] eqn:Hsh; simpl.
    + split.
      * intros [= <-]. left. auto.
      * intros [(_ & _ & ->)|(path & -> & Hne & _)]; [reflexivity|congruence].
    + destruct (Stat host (String b sh)) eqn:Hstat; split; try discriminate.
      * intros [(_ & Hs & _)|(path & -> & _ & Hst & _)]; congruence.
      * intros [= <-]. right. eexists. repeat split; [discriminate|exact Hstat].
      * intros [(_ & Hs & _)|(path & -> & _ & _ & ->)]; [discriminate|reflexivity].
      * intros [(_ & Hs & _)|(path & -> & _ & Hst & _)]; congruence.
  - destruct (Stat host (String a selected)) eqn:Hstat; split; try discriminate.
    + intros [(Hs & _)|(path & -> & _ & Hst & _)]; congruence.
    + intros [= <-]. right. eexists. repeat split; [discriminate|exact Hstat].
    + intros [(Hs & _)|(path & -> & _ & _ & ->)]; [discriminate|reflexivity].
    + intros [(Hs & _)|(path & -> & _ & Hst & _)]; congruence.
Qed.

(** *** The scan *)

Lemma scan_loop_elapsed (s : Stdout) :
  forall beginFound acc k elapsed,
    scan_loop beginFound acc (k + elapsed)%N s =
    delayed k <$> scan_loop beginFound acc elapsed s.
Proof.
  induction s as [d line s IH | d |]; intros bf acc k el; simpl.
  - replace (k + el + d)%N with (k + (el + d))%N by lia.
    destruct (beginRx_MatchString line); [apply IH|].
    destruct (negb bf); [apply IH|].
    destruct (endRx_FindStringSubmatch line) as [token|]; [|apply IH].
    destruct (Atoi token); reflexivity.
  - replace (k + el + d)%N with (k + (el + d))%N by lia. reflexivity.
  - reflexivity.
Qed.

(** Lines that stand before the begin marker, left over from earlier
    commands, only delay the result of the scan: output, exit code, error
    and the rest of the stream are those of the scan without them. *)
Theorem scan_ignores_leftover (pre : list (N * string)) (s : Stdout) :
  Forall (fun l => snd l ≠ beginMarker) pre ->
  scan (feed pre s) = delayed (total_delay pre) <$> scan s.
Proof.
  intros Hpre. unfold scan. rewrite scan_loop_skip by assumption.
  replace (0 + total_delay pre)%N with (total_delay pre + 0)%N by lia.
  apply scan_loop_elapsed.
Qed.

Lemma scan_ignores_leftover_witness :
  scan (feed [(4%N, "old output"); (1%N, endMarker +:+ " 7")] (stdout garbled_session)) =
  delayed 5 <$> scan (stdout garbled_session).
Proof.
  apply (scan_ignores_leftover [(4%N, "old output"); (1%N, endMarker +:+ " 7")]).
  repeat (constructor; [vm_compute; discriminate|]). constructor.
Defined.

Lemma scan_loop_sublist (s : Stdout) :
  forall beginFound acc elapsed t r rest,
    scan_loop beginFound acc elapsed s = Some (t, r, rest) ->
    (output r = [] \/ exists more, output r = acc ++ more /\ more `sublist_of` stream_lines s)
    /\ stream_lines rest `suffix_of` stream_lines s.
Proof.
  induction s as [d line s IH | d |]; intros bf acc el t r rest Hscan; simpl in Hscan.
  - assert (Hskip : forall bf', scan_loop bf' acc (el + d) s = Some (t, r, rest) ->
              (output r = [] \/
               exists more, output r = acc ++ more /\ more `sublist_of` stream_lines (Line d line s))
              /\ stream_lines rest `suffix_of` stream_lines (Line d line s)).
    { intros bf' H. apply IH in H as [[Hnil|(more & Hout & Hsub)] Hsuf]; simpl.
      - split; [left; exact Hnil|]. apply suffix_cons_r. exact Hsuf.
      - split; [|apply suffix_cons_r; exact Hsuf].
        right. exists more. split; [exact Hout|]. apply sublist_cons. exact Hsub. }
    destruct (beginRx_MatchString line); [eauto|].
    destruct bf; simpl in Hscan; [|eauto].
    destruct (endRx_FindStringSubmatch line) as [token|].
    + destruct (Atoi token); inversion Hscan; subst; simpl.
      * split; [|apply suffix_cons_r; reflexivity].
        right. exists []. rewrite app_nil_r. split; [reflexivity|apply sublist_nil_l].
      * split; [left; reflexivity|apply suffix_cons_r; reflexivity].
    + apply IH in Hscan as [[Hnil|(more & Hout & Hsub)] Hsuf]; simpl.
      * split; [left; exact Hnil|apply suffix_cons_r; exact Hsuf].
      * split; [|apply suffix_cons_r; exact Hsuf].
        right. exists (line :: more). rewrite <- app_assoc in Hout.
        split; [exact Hout|]. apply sublist_skip. exact Hsub.
  - inversion Hscan; subst; simpl. split; [|reflexivity].
    right. exists []. rewrite app_nil_r. split; [reflexivity|apply sublist_nil_l].
  - discriminate.
Qed.

Lemma ExecuteCommand_session ctx pick now sh command timeout t sh' res :
  ExecuteCommand ctx pick now sh command timeout = Some (t, sh', res) ->
  (now <= t)%N /\
  stdin sh' = stdin sh ++ [begin_statement; command_statement command] /\
  cmd sh' = cmd sh.
Proof.
  intros Hret. apply ExecuteCommand_inv in Hret.
  destruct Hret as [(d & r & rest & _ & -> & -> & _)
                   |[(_ & -> & -> & _)|(c0 & _ & -> & -> & _)]];
    simpl; split_and!; try reflexivity; lia.
Qed.

(** *** What a call does to the session *)

(** Whatever way a call of [ExecuteCommand] ends, it returns no earlier than
    it was made; it has appended exactly the two statements to what was
    written to the shell before; it has not ended the process; the output
    it returns is made of lines of the stream, in their order; and what is
    left of the stream is a tail of what was there. *)
Theorem ExecuteCommand_effects (ctx : Context) (pick : nat) (now : N) (sh : Shell)
    (command : string) (timeout : Z) (t : N) (sh' : Shell) (out : list string)
    (code : Z) (e : option error) :
  ExecuteCommand ctx pick now sh command timeout = Some (t, sh', (out, code, e)) ->
  (now <= t)%N
  /\ stdin sh' = stdin sh ++ [begin_statement; command_statement command]
  /\ cmd sh' = cmd sh
  /\ out `sublist_of` stream_lines (stdout sh)
  /\ stream_lines (stdout sh') `suffix_of` stream_lines (stdout sh).
Proof.
  intros Hret. apply ExecuteCommand_inv in Hret.
  destruct Hret as [(d & r & rest & Hs & -> & -> & Hres)
                   |[(_ & -> & -> & Hres)|(c0 & _ & -> & -> & Hres)]];
    inversion Hres; subst; simpl.
  - apply scan_loop_sublist in Hs as [[Hnil|(more & Hout & Hsub)] Hsuf].
    + rewrite Hnil.
      split_and!; [lia|reflexivity|reflexivity|apply sublist_nil_l|exact Hsuf].
    + rewrite Hout. simpl.
      split_and!; [lia|reflexivity|reflexivity|exact Hsub|exact Hsuf].
  - split_and!; [lia|reflexivity|reflexivity|apply sublist_nil_l|reflexivity].
  - split_and!; [lia|reflexivity|reflexivity|apply sublist_nil_l|reflexivity].
Qed.

Lemma ExecuteCommand_effects_witness :
  (0 <= 5)%N
  /\ stdin (mkShell [begin_statement; command_statement "cat notes"]
              (Line 1 (endMarker +:+ " 4") Blocked) Running false) =
     stdin echoing_session ++ [begin_statement; command_statement "cat notes"]
  /\ cmd (mkShell [begin_statement; command_statement "cat notes"]
            (Line 1 (endMarker +:+ " 4") Blocked) Running false) = cmd echoing_session
  /\ ["one"; endMarker] `sublist_of` stream_lines (stdout echoing_session)
  /\ stream_lines (Line 1 (endMarker +:+ " 4") Blocked) `suffix_of`
     stream_lines (stdout echoing_session).
Proof.
  apply (ExecuteCommand_effects Background 0 0 echoing_session "cat notes" 0 5
           (mkShell [begin_statement; command_statement "cat notes"]
              (Line 1 (endMarker +:+ " 4") Blocked) Running false)
           ["one"; endMarker] 3 None).
  vm_compute. reflexivity.
Defined.

(** With a timer among its cases, [select] takes a case, at a tick between
    the call and the timer. *)
Lemma select_timer_bound (ctx : Context) (pick : nat) (now : N) (timeout : Z)
    (scanned : option (N * commandResult * Stdout)) :
  0 < timeout ->
  exists t k,
    select pick (cases ctx now timeout scanned) = Some (t, k) /\
    (now <= t <= now + Z.to_N timeout)%N.
Proof.
  intros Hpos. set (cs := cases ctx now timeout scanned).
  assert (Htimer : ((now + Z.to_N timeout)%N, CaseTimeout) ∈ cs).
  { apply elem_of_cases. right; left. auto. }
  destruct (select_returns pick cs) as [[t k] Hsel].
  { intros Hnil. rewrite Hnil in Htimer. inversion Htimer. }
  exists t, k. split; [exact Hsel|].
  destruct (select_sound _ _ _ Hsel) as [Hin Hmin].
  specialize (Hmin _ Htimer). simpl in Hmin.
  apply elem_of_cases in Hin.
  destruct Hin as [(d & r & rest & _ & Heq)|[[_ Heq]|(c0 & _ & Heq)]];
    inversion Heq; lia.
Qed.

(** The timeout runs from the end of the two writes, which come before the
    [select].  [ExecuteCommand] is the call whose writes are done at once.
    A call with a positive timeout whose writes are done [w] ticks after
    it was made returns, no earlier than the writes and no later than the
    timeout after them, whatever the shell prints or fails to print; until
    the writes are done neither the timer nor the context is looked at, so
    that a call whose writes block never returns, whatever the timeout and
    the context. *)
Theorem ExecuteCommand_timeout_from_writes (ctx : Context) (pick : nat) (now : N)
    (sh : Shell) (command : string) (timeout : Z) :
  ExecuteCommand ctx pick now sh command timeout =
    ExecuteCommand_written (Some 0%N) ctx pick now sh command timeout
  /\ (forall w : N,
      0 < timeout ->
      exists t sh' res,
        ExecuteCommand_written (Some w) ctx pick now sh command timeout =
          Some (t, sh', res) /\
        stdin sh' = stdin sh ++ [begin_statement; command_statement command] /\
        (now + w <= t <= now + w + Z.to_N timeout)%N)
  /\ ExecuteCommand_written None ctx pick now sh command timeout = None.
Proof.
  split_and!.
  - unfold ExecuteCommand_written, await, ExecuteCommand. rewrite N.add_0_r. reflexivity.
  - intros w Hpos. unfold ExecuteCommand_written, await.
    set (scanned := scan (stdout (send sh command))).
    destruct (select_timer_bound ctx pick (now + w)%N timeout scanned Hpos)
      as (t & k & Hsel & Ht).
    rewrite Hsel. destruct k as [r rest| |]; eexists t, _, _;
      (split; [reflexivity|split; [reflexivity|exact Ht]]).
  - reflexivity.
Qed.

Lemma ExecuteCommand_timeout_from_writes_witness :
  exists t sh' res,
    ExecuteCommand_written (Some 7%N) Background 0 10 stalled_session "sleep 10" 100000000 =
      Some (t, sh', res) /\
    stdin sh' = stdin stalled_session ++ [begin_statement; command_statement "sleep 10"] /\
    (10 + 7 <= t <= 10 + 7 + Z.to_N 100000000)%N.
Proof.
  destruct (ExecuteCommand_timeout_from_writes Background 0 10 stalled_session "sleep 10"
              100000000) as (_ & Hbound & _).
  apply (Hbound 7%N). lia.
Defined.

(** *** End of input *)

(** When the stream ends before an end line has come, the call does not
    fail: it returns the lines collected after the begin marker, none if
    there was no begin marker, with the exit code 0 and no error. *)
Theorem ExecuteCommand_end_of_input (ctx : Context) (pick : nat) (now : N)
    (sh : Shell) (command : string) (timeout : Z) (pre body : list (N * string))
    (d_begin d_eof : N) :
  Forall (fun l => snd l ≠ beginMarker) pre ->
  Forall (fun l => endRx_FindStringSubmatch (snd l) = None) body ->
  (stdout sh = feed pre (EOF d_eof) ->
   let d := (total_delay pre + d_eof)%N in
   (0 < timeout -> (d < Z.to_N timeout)%N) ->
   (forall c, doneAt ctx = Some c -> (now + d < c)%N) ->
   ExecuteCommand ctx pick now sh command timeout =
   Some ((now + d)%N,
         mkShell (stdin sh ++ [begin_statement; command_statement command]) (EOF 0)
           (cmd sh) (abandoned_scan sh),
         ([], 0, None)))
  /\ (stdout sh = feed pre (Line d_begin beginMarker (feed body (EOF d_eof))) ->
      let d := (total_delay pre + d_begin + total_delay body + d_eof)%N in
      (0 < timeout -> (d < Z.to_N timeout)%N) ->
      (forall c, doneAt ctx = Some c -> (now + d < c)%N) ->
      ExecuteCommand ctx pick now sh command timeout =
      Some ((now + d)%N,
            mkShell (stdin sh ++ [begin_statement; command_statement command]) (EOF 0)
              (cmd sh) (abandoned_scan sh),
            (filter (fun l => l ≠ beginMarker) (map snd body), 0, None))).
Proof.
  intros Hpre Hbody. split.
  - intros Hout d Htimer Hctx.
    assert (Hscan : scan (stdout sh) = Some (d, mkResult [] 0 None, EOF 0)).
    { rewrite Hout. unfold scan. rewrite scan_loop_skip by assumption. simpl.
      repeat f_equal. }
    rewrite (ExecuteCommand_scan_first _ _ _ _ _ _ _ _ _ Hscan Htimer Hctx). reflexivity.
  - intros Hout d Htimer Hctx.
    assert (Hscan : scan (stdout sh) =
                    Some (d, mkResult (filter (fun l => l ≠ beginMarker) (map snd body)) 0 None,
                          EOF 0)).
    { rewrite Hout. unfold scan. rewrite scan_loop_skip by assumption.
      simpl scan_loop at 1.
      replace (beginRx_MatchString beginMarker) with true by reflexivity.
      rewrite scan_loop_collect by assumption. simpl. subst d. repeat f_equal; lia. }
    rewrite (ExecuteCommand_scan_first _ _ _ _ _ _ _ _ _ Hscan Htimer Hctx). reflexivity.
Qed.

Lemma ExecuteCommand_end_of_input_witness :
  ExecuteCommand Background 0 0 (mkShell [] (feed [(1%N, "bye")] (EOF 2)) Running false)
    "exit 3" 0 =
    Some (3%N,
          mkShell [begin_statement; command_statement "exit 3"] (EOF 0) Running false,
          ([], 0, None))
  /\ ExecuteCommand Background 0 0
       (mkShell [] (feed [] (Line 1 beginMarker (feed [(1%N, "half")] (EOF 2)))) Running false)
       "echo half; exit 3" 0 =
     Some (4%N,
           mkShell [begin_statement; command_statement "echo half; exit 3"] (EOF 0)
             Running false,
           (["half"], 0, None)).
Proof.
  split.
  - destruct (ExecuteCommand_end_of_input Background 0 0
                (mkShell [] (feed [(1%N, "bye")] (EOF 2)) Running false) "exit 3" 0
                [(1%N, "bye")] [] 0 2) as [Hplain _].
    + repeat (constructor; [vm_compute; discriminate|]). constructor.
    + constructor.
    + apply Hplain; [reflexivity|lia|]. intros c Hc. discriminate Hc.
  - destruct (ExecuteCommand_end_of_input Background 0 0
                (mkShell [] (feed [] (Line 1 beginMarker (feed [(1%N, "half")] (EOF 2))))
                   Running false)
                "echo half; exit 3" 0 [] [(1%N, "half")] 1 2) as [_ Hbegun].
    + constructor.
    + repeat (constructor; [vm_compute; reflexivity|]). constructor.
    + apply Hbegun; [reflexivity|lia|]. intros c Hc. discriminate Hc.
Defined.

(** *** Calls in sequence *)

(** Framing composes, as long as the shell is not ahead of the calls.  On
    a stream that holds two framed answers one after the other, two calls
    in sequence, without timeout and never cancelled, return the body and
    the exit code of the first and of the second answer; the shell has
    been written the four statements in order, and the stream is left
    behind the second end line.  This needs that nothing of what follows
    an end line has reached the pipe when that line is read ([pending]):
    each call makes a scanner of its own, and what the scanner of a call
    has read ahead is lost to the next call. *)
Theorem ExecuteCommand_in_sequence (ctx : Context) (pick1 pick2 : nat) (now : N)
    (sh : Shell) (command1 command2 : string) (timeout : Z)
    (pre1 body1 pre2 body2 : list (N * string)) (b1 e1 b2 e2 : N)
    (end1 token1 end2 token2 : string) (value1 value2 : Z) (rest : Stdout) :
  let d1 := (total_delay pre1 + b1 + total_delay body1 + e1)%N in
  let d2 := (total_delay pre2 + b2 + total_delay body2 + e2)%N in
  stdout sh = answer pre1 b1 body1 e1 end1 (answer pre2 b2 body2 e2 end2 rest) ->
  pending (answer pre2 b2 body2 e2 end2 rest) = true ->
  pending rest = true ->
  Forall (fun l => snd l ≠ beginMarker) pre1 ->
  Forall (fun l => endRx_FindStringSubmatch (snd l) = None) body1 ->
  endRx_FindStringSubmatch end1 = Some token1 ->
  Atoi token1 = Some value1 ->
  Forall (fun l => snd l ≠ beginMarker) pre2 ->
  Forall (fun l => endRx_FindStringSubmatch (snd l) = None) body2 ->
  endRx_FindStringSubmatch end2 = Some token2 ->
  Atoi token2 = Some value2 ->
  timeout <= 0 ->
  doneAt ctx = None ->
  exists sh1,
    ExecuteCommand ctx pick1 now sh command1 timeout =
      Some ((now + d1)%N, sh1,
            (filter (fun l => l ≠ beginMarker) (map snd body1), value1, None)) /\
    ExecuteCommand ctx pick2 (now + d1)%N sh1 command2 timeout =
      Some ((now + d1 + d2)%N,
            mkShell
              (stdin sh ++
               [begin_statement; command_statement command1;
                begin_statement; command_statement command2])
              rest (cmd sh) (abandoned_scan sh),
            (filter (fun l => l ≠ beginMarker) (map snd body2), value2, None)).
Proof.
  intros d1 d2 Hout _ _ Hpre1 Hbody1 Hend1 Hatoi1 Hpre2 Hbody2 Hend2 Hatoi2 Htimeout Hctx.
  unfold answer in Hout.
  pose proof (scan_framed _ _ b1 e1 _ _
                (feed pre2 (Line b2 beginMarker (feed body2 (Line e2 end2 rest))))
                Hpre1 Hbody1 Hend1) as Hscan1.
  rewrite <- Hout, Hatoi1 in Hscan1.
  pose proof (scan_framed _ _ b2 e2 _ _ rest Hpre2 Hbody2 Hend2) as Hscan2.
  rewrite Hatoi2 in Hscan2.
  set (sh1 := mkShell (stdin sh ++ [begin_statement; command_statement command1])
                (feed pre2 (Line b2 beginMarker (feed body2 (Line e2 end2 rest))))
                (cmd sh) (abandoned_scan sh)).
  assert (Hscan2' :
    scan (stdout sh1) =
    Some ((total_delay pre2 + b2 + total_delay body2 + e2)%N,
          mkResult (filter (fun l => l ≠ beginMarker) (map snd body2)) value2 None, rest))
    by exact Hscan2.
  exists sh1. split.
  - rewrite (ExecuteCommand_scan_first ctx pick1 now sh command1 timeout _ _ _ Hscan1);
      [reflexivity|lia|]. intros c Hc. congruence.
  - rewrite (ExecuteCommand_scan_first ctx pick2 (now + d1)%N sh1 command2 timeout _ _ _
               Hscan2'); [|lia|intros c Hc; congruence].
    simpl. rewrite <- app_assoc. reflexivity.
Qed.

Lemma ExecuteCommand_in_sequence_witness :
  exists sh1,
    ExecuteCommand Background 0 0 (mkShell [] two_answers Running false) "echo hello" 0 =
      Some (3%N, sh1, (["hello"], 0, None)) /\
    ExecuteCommand Background 0 3 sh1 "echo world; false" 0 =
      Some (8%N,
            mkShell [begin_statement; command_statement "echo hello";
                     begin_statement; command_statement "echo world; false"]
              Blocked Running false,
            (["world"], 1, None)).
Proof.
  apply (ExecuteCommand_in_sequence Background 0 0 0 (mkShell [] two_answers Running false)
           "echo hello" "echo world; false" 0
           [] [(1%N, "hello")] [(2%N, "stray")] [(1%N, "world")] 1 1 1 1
           (endMarker +:+ " 0") "0" (endMarker +:+ " 1") "1" 0 1 Blocked).
  - reflexivity.
  - reflexivity.
  - reflexivity.
  - constructor.
  - repeat (constructor; [vm_compute; reflexivity|]). constructor.
  - vm_compute. reflexivity.
  - vm_compute. reflexivity.
  - repeat (constructor; [vm_compute; discriminate|]). constructor.
  - repeat (constructor; [vm_compute; reflexivity|]). constructor.
  - vm_compute. reflexivity.
  - vm_compute. reflexivity.
  - lia.
  - reflexivity.
Defined.

(** *** The instruction written to the shell *)

Lemma append_assoc (a b c : string) : (a +:+ b) +:+ c = a +:+ (b +:+ c).
Proof.
  induction a as [|x a IH]; [reflexivity|].
  change (String x ((a +:+ b) +:+ c) = String x (a +:+ (b +:+ c))). rewrite IH. reflexivity.
Qed.

Lemma length_append (a b : string) :
  String.length (a +:+ b) = (String.length a + String.length b)%nat.
Proof.
  induction a as [|x a IH]; [reflexivity|].
  change (S (String.length (a +:+ b)) = S (String.length a + String.length b)).
  rewrite IH. reflexivity.
Qed.

Lemma rev_app_spec (s acc : string) : String.rev_app s acc = String.rev s +:+ acc.
Proof.
  revert acc. induction s as [|c s IH]; intros acc; [reflexivity|].
  unfold String.rev. simpl. rewrite (IH (String c acc)), (IH (String c EmptyString)).
  rewrite append_assoc. reflexivity.
Qed.

Lemma rev_append (a b : string) : String.rev (a +:+ b) = String.rev b +:+ String.rev a.
Proof.
  unfold String.rev at 1. rewrite tokenizer_facts.rev_app_append.
  rewrite rev_app_spec. reflexivity.
Qed.

Lemma length_rev (s : string) : String.length (String.rev s) = String.length s.
Proof.
  induction s as [|c s IH]; [reflexivity|].
  change (String c s) with (String c EmptyString +:+ s).
  rewrite rev_append, !length_append, IH. simpl. lia.
Qed.

Lemma strip_prefix_Some (p s r : string) : strip_prefix p s = Some r -> s = p +:+ r.
Proof.
  revert s. induction p as [|a p IH]; intros s; simpl.
  - intros [= ->]. reflexivity.
  - destruct s as [|b s]; [discriminate|].
    destruct (Ascii.eqb a b) eqn:Hab; [|discriminate].
    apply Ascii.eqb_eq in Hab. subst b. intros H. apply IH in H. subst s. reflexivity.
Qed.

Lemma strip_prefix_extend (p a b r : string) :
  strip_prefix p a = Some r -> strip_prefix p (a +:+ b) = Some (r +:+ b).
Proof.
  intros H. apply strip_prefix_Some in H. subst a.
  rewrite append_assoc. apply tokenizer_facts.strip_prefix_refl.
Qed.

Lemma strip_any_Some (ws : list string) (s r : string) :
  strip_any ws s = Some r -> exists w, w ∈ ws /\ s = w +:+ r.
Proof.
  induction ws as [|w ws IH]; simpl; [discriminate|].
  destruct (strip_prefix w s) as [r'|] eqn:Hw.
  - intros [= ->]. exists w. split; [left|]. apply strip_prefix_Some. exact Hw.
  - intros H. destruct (IH H) as (w' & Hin & Heq). exists w'. split; [right|]; assumption.
Qed.

Lemma strip_any_extend (ws : list string) (a b : string) :
  strip_any ws (a +:+ b) = None -> strip_any ws a = None.
Proof.
  induction ws as [|w ws IH]; simpl; [reflexivity|].
  destruct (strip_prefix w a) as [r|] eqn:Hw.
  - rewrite (strip_prefix_extend _ _ b _ Hw). discriminate.
  - destruct (strip_prefix w (a +:+ b)); [discriminate|]. exact IH.
Qed.

Lemma strip_any_empty (ws : list string) :
  Forall (fun w => w ≠ EmptyString) ws -> strip_any ws EmptyString = None.
Proof.
  induction 1 as [|w ws Hw _ IH]; simpl; [reflexivity|].
  destruct w; [congruence|]. exact IH.
Qed.

Lemma trim_left_suffix (ws : list string) (fuel : nat) (s : string) :
  exists p, s = p +:+ trim_left ws fuel s.
Proof.
  revert s. induction fuel as [|fuel IH]; intros s; simpl.
  - exists EmptyString. reflexivity.
  - destruct (strip_any ws s) as [r|] eqn:Hs; [|exists EmptyString; reflexivity].
    destruct (strip_any_Some _ _ _ Hs) as (w & _ & ->).
    destruct (IH r) as [p Hp]. exists (w +:+ p).
    rewrite append_assoc, <- Hp. reflexivity.
Qed.

Lemma trim_left_stops (ws : list string) (fuel : nat) (s : string) :
  Forall (fun w => w ≠ EmptyString) ws ->
  (String.length s <= fuel)%nat ->
  strip_any ws (trim_left ws fuel s) = None.
Proof.
  intros Hws. revert s. induction fuel as [|fuel IH]; intros s Hlen; simpl.
  - destruct s; [|simpl in Hlen; lia]. apply strip_any_empty. exact Hws.
  - destruct (strip_any ws s) as [r|] eqn:Hs; [|exact Hs].
    apply IH. destruct (strip_any_Some _ _ _ Hs) as (w & Hin & ->).
    rewrite length_append in Hlen.
    assert (w ≠ EmptyString) by (eapply (proj1 (Forall_forall _ _) Hws); exact Hin).
    destruct w; [congruence|]. simpl in Hlen. lia.
Qed.

Lemma trim_left_fixed (ws : list string) (fuel : nat) (s : string) :
  strip_any ws s = None -> trim_left ws fuel s = s.
Proof. intros H. destruct fuel; simpl; [reflexivity|]. rewrite H. reflexivity. Qed.

Lemma white_space_not_empty :
  Forall (fun w => w ≠ EmptyString) white_space /\
  Forall (fun w => w ≠ EmptyString) (map String.rev white_space).
Proof. split; vm_compute; repeat (constructor; [discriminate|]); constructor. Qed.

Lemma TrimSpace_no_white_space (s : string) :
  strip_any white_space (TrimSpace s) = None /\
  strip_any (map String.rev white_space) (String.rev (TrimSpace s)) = None.
Proof.
  destruct white_space_not_empty as [Hws Hwsr].
  unfold TrimSpace, TrimRightSpace.
  set (L := TrimLeftSpace s).
  set (R := trim_left (map String.rev white_space) (String.length L) (String.rev L)).
  assert (HL : strip_any white_space L = None)
    by (apply trim_left_stops; [exact Hws|reflexivity]).
  assert (HR : strip_any (map String.rev white_space) R = None)
    by (apply trim_left_stops; [exact Hwsr|rewrite length_rev; reflexivity]).
  split.
  - destruct (trim_left_suffix (map String.rev white_space) (String.length L) (String.rev L))
      as [p Hp].
    fold R in Hp. apply (f_equal String.rev) in Hp.
    rewrite tokenizer_facts.rev_involutive, rev_append in Hp.
    rewrite Hp in HL. apply strip_any_extend in HL. exact HL.
  - rewrite tokenizer_facts.rev_involutive. exact HR.
Qed.

(** The instruction that [ExecuteCommand] writes neither begins nor ends
    with white space, and trimming is idempotent: a command that is
    trimmed already, as the extractor hands it over, is written as it is,
    and a command and its trimmed form give the same statement. *)
Theorem command_statement_trimmed (command : string) :
  strip_any white_space (TrimSpace command) = None
  /\ strip_any (map String.rev white_space) (String.rev (TrimSpace command)) = None
  /\ TrimSpace (TrimSpace command) = TrimSpace command
  /\ command_statement (TrimSpace command) = command_statement command.
Proof.
  destruct (TrimSpace_no_white_space command) as [Hfront Hback].
  assert (Hidem : TrimSpace (TrimSpace command) = TrimSpace command).
  { unfold TrimSpace at 1. unfold TrimLeftSpace at 1.
    rewrite (trim_left_fixed _ _ _ Hfront). unfold TrimRightSpace.
    rewrite (trim_left_fixed _ _ _ Hback). apply tokenizer_facts.rev_involutive. }
  split_and!; [exact Hfront|exact Hback|exact Hidem|].
  unfold command_statement. rewrite Hidem. reflexivity.
Qed.

End shell_more.

(** * Further properties of the packages version and run *)

Module version_more.
Import version.

(** [Version] never returns the empty string.  A version set at build
    time wins over the build information; without one the version of the
    build information is returned when there is one and it is not empty,
    and the word [unknown] when the build information is missing or its
    version is empty. *)
Theorem Version_not_empty (versionString : string) (buildInfo : option string) :
  Version versionString buildInfo ≠ EmptyString
  /\ (versionString ≠ EmptyString -> Version versionString buildInfo = versionString)
  /\ (versionString = EmptyString -> buildInfo = None ->
      Version versionString buildInfo = "unknown")
  /\ (forall v : string,
      versionString = EmptyString -> buildInfo = Some v -> v ≠ EmptyString ->
      Version versionString buildInfo = v)
  /\ (versionString = EmptyString -> buildInfo = Some EmptyString ->
      Version versionString buildInfo = "unknown").
Proof.
  unfold Version. split_and!.
  - destruct (String.eqb versionString EmptyString) eqn:Hv; simpl.
    + destruct buildInfo as [v|]; [|discriminate].
      destruct (String.eqb v EmptyString) eqn:Hb; simpl; [discriminate|].
      apply String.eqb_neq. exact Hb.
    + apply String.eqb_neq. exact Hv.
  - intros Hne. apply String.eqb_neq in Hne. rewrite Hne. reflexivity.
  - intros -> ->. reflexivity.
  - intros v -> -> Hne. apply String.eqb_neq in Hne. simpl. rewrite Hne. reflexivity.
  - intros -> ->. reflexivity.
Qed.

Lemma Version_not_empty_witness :
  Version "v1.2.3" (Some "(devel)") = "v1.2.3"
  /\ Version EmptyString None = "unknown"
  /\ Version EmptyString (Some "v0.9.1") = "v0.9.1"
  /\ Version EmptyString (Some EmptyString) = "unknown".
Proof.
  destruct (Version_not_empty "v1.2.3" (Some "(devel)")) as (_ & Hset & _).
  destruct (Version_not_empty EmptyString None) as (_ & _ & Hunknown & _).
  destruct (Version_not_empty EmptyString (Some "v0.9.1")) as (_ & _ & _ & Hbuild & _).
  destruct (Version_not_empty EmptyString (Some EmptyString)) as (_ & _ & _ & _ & Hempty).
  split_and!.
  - apply Hset. discriminate.
  - apply Hunknown; reflexivity.
  - apply (Hbuild "v0.9.1"); [reflexivity|reflexivity|discriminate].
  - apply Hempty; reflexivity.
Defined.

End version_more.

Module input_more.
Import strutil run.

Lemma read_files_result (fs : Files) (args : list string) :
  forall result,
    read_files fs result args =
    match read_files fs EmptyString args with
    | inl data => inl (result +:+ data)
    | inr e => inr e
    end.
Proof.
  induction args as [|f args IH]; intros result; simpl.
  - rewrite tokenizer_facts.append_empty_r. reflexivity.
  - destruct (ReadFile fs f) as [content|]; [|reflexivity].
    rewrite (IH (result +:+ content)), (IH (EmptyString +:+ content)).
    destruct (read_files fs EmptyString args); [|reflexivity].
    rewrite shell_more.append_assoc. reflexivity.
Qed.

Lemma read_files_contents (fs : Files) (args : list string) (data : string) :
  read_files fs EmptyString args = inl data <->
  exists contents,
    Forall2 (fun f c => ReadFile fs f = Some c) args contents /\
    data = fold_right String.append EmptyString contents.
Proof.
  revert data. induction args as [|f args IH]; intros data; simpl.
  - split.
    + intros [= <-]. exists []. split; [constructor|reflexivity].
    + intros (contents & Hall & ->). inversion Hall. reflexivity.
  - destruct (ReadFile fs f) as [content|] eqn:Hf.
    + rewrite read_files_result. split.
      * destruct (read_files fs EmptyString args) as [rest|e] eqn:Hrest; [|discriminate].
        intros [= <-]. destruct (proj1 (IH rest) eq_refl) as (contents & Hall & ->).
        exists (content :: contents). split; [constructor; assumption|reflexivity].
      * intros (contents & Hall & ->). inversion Hall as [|? c ? cs Hc Hcs]; subst.
        assert (c = content) by congruence. subst c.
        rewrite (proj2 (IH (fold_right String.append EmptyString cs))) by eauto.
        reflexivity.
    + split; [discriminate|]. intros (contents & Hall & _).
      inversion Hall; subst. congruence.
Qed.

(** With file names given, [ReadInput] succeeds exactly when every file
    can be read, and then returns their contents one after the other in
    the order of the names; the standard input is not read. *)
Theorem ReadInput_concatenates (fs : Files) (args : list string) (data : string) :
  args ≠ [] ->
  ReadInput fs args = inl data <->
  exists contents,
    Forall2 (fun f c => ReadFile fs f = Some c) args contents /\
    data = fold_right String.append EmptyString contents.
Proof.
  intros Hargs. destruct args as [|f args]; [congruence|].
  apply (read_files_contents fs (f :: args)).
Qed.

(** A small file system for the examples. *)
Lemma ReadInput_concatenates_witness :
  let fs :=
    mkFiles (fun f => if String.eqb f "a.md" then Some "alpha "
                      else if String.eqb f "b.md" then Some "beta" else None) None in
  ReadInput fs ["a.md"; "b.md"; "a.md"] = inl "alpha betaalpha ".
Proof.
  intros fs.
  apply (ReadInput_concatenates fs ["a.md"; "b.md"; "a.md"] "alpha betaalpha ").
  - discriminate.
  - exists ["alpha "; "beta"; "alpha "]. split; [|reflexivity].
    repeat (constructor; [reflexivity|]). constructor.
Defined.

(** [ReadInput] fails on a file exactly when that file is the first one
    that cannot be read: every file before it has been read, none after it
    is looked at. *)
Theorem ReadInput_first_unreadable (fs : Files) (args : list string) (f : string) :
  ReadInput fs args = inr (ErrReadFile f) <->
  exists before after,
    args = before ++ f :: after /\
    Forall (fun g => is_Some (ReadFile fs g)) before /\
    ReadFile fs f = None.
Proof.
  destruct args as [|g args].
  - simpl. split.
    + destruct (ReadAllStdin fs); discriminate.
    + intros (before & after & Heq & _). destruct before; discriminate.
  - change (ReadInput fs (g :: args)) with (read_files fs EmptyString (g :: args)).
    generalize EmptyString. generalize (g :: args). clear g args.
    intros args. induction args as [|g args IH]; intros result; simpl.
    + split; [discriminate|]. intros (before & after & Heq & _).
      destruct before; discriminate.
    + destruct (ReadFile fs g) as [content|] eqn:Hg.
      * rewrite IH. split.
        -- intros (before & after & -> & Hbefore & Hf).
           exists (g :: before), after. split_and!; [reflexivity| |exact Hf].
           constructor; [rewrite Hg; eauto|exact Hbefore].
        -- intros (before & after & Heq & Hbefore & Hf).
           destruct before as [|b before]; simpl in Heq; inversion Heq; subst.
           ++ congruence.
           ++ inversion Hbefore; subst. eauto.
      * split.
        -- intros [= <-]. exists [], args. split_and!; [reflexivity|constructor|exact Hg].
        -- intros (before & after & Heq & Hbefore & Hf).
           destruct before as [|b before]; simpl in Heq; inversion Heq; subst.
           ++ reflexivity.
           ++ inversion Hbefore as [|? ? [c Hc] ?]; subst. congruence.
Qed.

Lemma read_files_app (fs : Files) (l l' : list string) :
  forall result,
    read_files fs result (l ++ l') =
    match read_files fs result l with
    | inl x => read_files fs x l'
    | inr e => inr e
    end.
Proof.
  induction l as [|h l IH]; intros result; simpl; [reflexivity|].
  destruct (ReadFile fs h); [apply IH|reflexivity].
Qed.

(** Reading two lists of files at once is reading them one after the
    other: the data are appended, and the first error is the error. *)
Theorem ReadInput_app (fs : Files) (a b : list string) :
  a ≠ [] -> b ≠ [] ->
  ReadInput fs (a ++ b) =
  match ReadInput fs a with
  | inl x =>
      match ReadInput fs b with
      | inl y => inl (x +:+ y)
      | inr e => inr e
      end
  | inr e => inr e
  end.
Proof.
  intros Ha Hb. destruct a as [|f a]; [congruence|]. destruct b as [|g b]; [congruence|].
  change (ReadInput fs ((f :: a) ++ g :: b))
    with (read_files fs EmptyString ((f :: a) ++ g :: b)).
  change (ReadInput fs (f :: a)) with (read_files fs EmptyString (f :: a)).
  change (ReadInput fs (g :: b)) with (read_files fs EmptyString (g :: b)).
  rewrite read_files_app. destruct (read_files fs EmptyString (f :: a)); [|reflexivity].
  apply read_files_result.
Qed.

Lemma ReadInput_app_witness :
  let fs :=
    mkFiles (fun f => if String.eqb f "a.md" then Some "alpha "
                      else if String.eqb f "b.md" then Some "beta" else None) None in
  ReadInput fs (["a.md"] ++ ["b.md"; "c.md"]) = inr (ErrReadFile "c.md").
Proof.
  intros fs.
  rewrite (ReadInput_app fs ["a.md"] ["b.md"; "c.md"]); [reflexivity|discriminate|discriminate].
Defined.

End input_more.

Module run_more.
Import strutil shell tokenizer junitxml run examples shell_facts run_facts.

Section Coordinator.

Variable classify : Interaction -> list string -> Z -> ResultState.
Variable DescribeFull : Interaction -> string.
Variable runCtx : RunContext.
Variable ctx : Context.
Variable sched : nat -> nat.
Variable inputfile : string.

Local Abbreviation loop :=
  (interaction_loop classify DescribeFull runCtx ctx sched inputfile).
Local Abbreviation recorded := (record_result DescribeFull runCtx inputfile).

(** What [performTestCase] returns. *)
Lemma performTestCase_inv pick t0 i sh t tc i' sh' e :
  performTestCase classify runCtx ctx pick t0 i sh = Some (t, tc, i', sh', e) ->
  tc = mkTestCase EmptyString (Cmd i) None None /\
  exists out code,
    ExecuteCommand ctx pick t0 sh (Cmd i) (Timeout runCtx) = Some (t, sh', (out, code, e)) /\
    i' = match e with
         | Some _ => mark i ResultExecutionError
         | None => set_result i out code (classify i out code)
         end.
Proof.
  unfold performTestCase, Execute.
  destruct (ExecuteCommand ctx pick t0 sh (Cmd i) (Timeout runCtx))
    as [[[t1 sh1] [[out code] e1]]|]; [|discriminate].
  destruct e1 as [x|]; intros [= <- <- <- <- <-]; split; eauto.
Qed.

(** Induction along the turns of the loop. *)
Lemma interaction_loop_turns
    (P : nat -> State -> list Interaction -> State -> list Interaction -> Prop) :
  (forall index st, P index st [] (print_summary false st) []) ->
  (forall index st i todo,
      Done ctx (now st) = true ->
      P index st (i :: todo) (print_summary true st) (i :: todo)) ->
  (forall index st i todo t tc i' sh' e,
      Done ctx (now st) = false ->
      performTestCase classify runCtx ctx (sched index) (now st) i (session st) =
        Some (t, tc, i', sh', e) ->
      stops runCtx i' e = true ->
      P index st (i :: todo) (print_summary false (recorded st t tc i' sh' e)) todo) ->
  (forall index st i todo t tc i' sh' e st' rest,
      Done ctx (now st) = false ->
      performTestCase classify runCtx ctx (sched index) (now st) i (session st) =
        Some (t, tc, i', sh', e) ->
      stops runCtx i' e = false ->
      loop (S index) (recorded st t tc i' sh' e) todo = Some (st', rest) ->
      P (S index) (recorded st t tc i' sh' e) todo st' rest ->
      P index st (i :: todo) st' rest) ->
  forall todo index st st' rest,
    loop index st todo = Some (st', rest) -> P index st todo st' rest.
Proof.
  intros Hnil Hdone Hstop Hnext.
  induction todo as [|i todo IH]; intros index st st' rest; simpl.
  - intros [= <- <-]. apply Hnil.
  - destruct (Done ctx (now st)) eqn:Hd; [intros [= <- <-]; apply Hdone; exact Hd|].
    destruct (performTestCase classify runCtx ctx (sched index) (now st) i (session st))
      as [[[[[t tc] i'] sh'] e]|] eqn:Hcase; [|discriminate].
    destruct (stops runCtx i' e) eqn:Hs.
    + intros [= <- <-]. eapply Hstop; eauto.
    + intros Hloop. eapply Hnext; eauto.
Qed.

(** What one turn adds to the state. *)
Lemma recorded_facts st t i i' sh e :
  let st1 := recorded st t (mkTestCase EmptyString (Cmd i) None None) i' sh e in
  now st1 = t /\ session st1 = sh /\ printed st1 = printed st /\
  visited st1 = visited st ++ [i'] /\
  SuiteName (suite st1) = SuiteName (suite st) /\
  Tests (suite st1) = S (Tests (suite st)) /\
  exists tc,
    TestCases (suite st1) = TestCases (suite st) ++ [tc] /\
    Name tc = Cmd i /\ Classname tc = class_name runCtx inputfile /\
    (Failure tc ≠ None <-> HasFailure i' = true) /\
    (forall m, Error tc = Some m -> e = Some (Contents m)) /\
    Errors (suite st1) =
      (Errors (suite st) + match e with Some _ => 1 | None => 0 end)%nat /\
    Failures (suite st1) = (Failures (suite st) + if HasFailure i' then 1 else 0)%nat /\
    returnCodes st1 =
      returnCodes st ++ match e with Some _ => [returnError] | None => [] end ++
      (if HasFailure i' then [returnFailure] else []).
Proof.
  unfold record_result. simpl. split_and!; try reflexivity.
  eexists. split; [reflexivity|]. unfold class_name.
  destruct e as [x|], (HasFailure i'); simpl;
    (split_and!;
     [reflexivity|reflexivity|split; congruence|
      try (intros m [= <-]; reflexivity); try discriminate|
      lia|lia|rewrite <- ?app_assoc, ?app_nil_r; reflexivity]).
Qed.

(** The loop goes through a front part of the interactions, one test case
    and one pair of statements for each, and leaves the others. *)
Lemma interaction_loop_accounts (todo : list Interaction) :
  forall index st st' rest,
    loop index st todo = Some (st', rest) ->
    exists done,
      todo = done ++ rest /\
      map Name (TestCases (suite st')) = map Name (TestCases (suite st)) ++ map Cmd done /\
      map Classname (TestCases (suite st')) =
        map Classname (TestCases (suite st)) ++
        map (fun _ => class_name runCtx inputfile) done /\
      Tests (suite st') = (Tests (suite st) + length done)%nat /\
      SuiteName (suite st') = SuiteName (suite st) /\
      map Cmd (visited st') = map Cmd (visited st) ++ map Cmd done /\
      stdin (session st') = stdin (session st) ++ framed done /\
      cmd (session st') = cmd (session st) /\
      (now st <= now st')%N.
Proof.
  apply (interaction_loop_turns
           (fun index st todo st' rest =>
              exists done,
                todo = done ++ rest /\
                map Name (TestCases (suite st')) =
                  map Name (TestCases (suite st)) ++ map Cmd done /\
                map Classname (TestCases (suite st')) =
                  map Classname (TestCases (suite st)) ++
                  map (fun _ => class_name runCtx inputfile) done /\
                Tests (suite st') = (Tests (suite st) + length done)%nat /\
                SuiteName (suite st') = SuiteName (suite st) /\
                map Cmd (visited st') = map Cmd (visited st) ++ map Cmd done /\
                stdin (session st') = stdin (session st) ++ framed done /\
                cmd (session st') = cmd (session st) /\
                (now st <= now st')%N)).
  - intros index st. exists []. simpl. rewrite !app_nil_r.
    split_and!; try reflexivity. lia.
  - intros index st i todo' Hdone. exists []. simpl. rewrite !app_nil_r.
    split_and!; try reflexivity. lia.
  - intros index st i todo' t tc i' sh' e Hdone Hcase Hstop.
    apply performTestCase_inv in Hcase as (-> & out & code & Hexec & Hi').
    destruct (recorded_facts st t i i' sh' e)
      as (Hnow & Hsess & _ & Hvis & Hname & Htests & tc & Hcases & Hn & Hc & _).
    apply shell_more.ExecuteCommand_session in Hexec as (Ht & Hstdin & Hcmd).
    exists [i]. cbn [print_summary suite session now visited app].
    rewrite Hcases, Hvis, Hsess, Htests, Hname, Hnow, !map_app.
    simpl. rewrite Hn, Hc, Hstdin, Hcmd.
    split_and!; try reflexivity; [lia| |exact Ht].
    do 2 f_equal. subst i'. destruct e; reflexivity.
  - intros index st i todo' t tc i' sh' e st' rest Hdone Hcase Hstop Hloop IH.
    apply performTestCase_inv in Hcase as (-> & out & code & Hexec & Hi').
    destruct (recorded_facts st t i i' sh' e)
      as (Hnow & Hsess & _ & Hvis & Hname & Htests & tc & Hcases & Hn & Hc & _).
    apply shell_more.ExecuteCommand_session in Hexec as (Ht & Hstdin & Hcmd).
    destruct IH as (done & -> & HN & HC & HT & HS & HV & HI & HK & HW).
    rewrite Hcases, !map_app in HN, HC. simpl in HN, HC.
    rewrite Hvis, map_app in HV. simpl in HV.
    rewrite Hsess in HI, HK. rewrite Hnow in HW.
    exists (i :: done). simpl.
    rewrite HN, HC, HT, HS, HV, HI, HK, Htests, Hname, Hn, Hc, Hstdin, Hcmd.
    rewrite <- !app_assoc. simpl.
    split_and!; try reflexivity; [lia| |lia].
    do 2 f_equal. subst i'. destruct e; reflexivity.
Qed.

Lemma map_const_Forall {A B C : Type} (f : A -> B) (c : B) (l : list A) :
  forall l' : list C, map f l = map (fun _ => c) l' -> Forall (fun x => f x = c) l.
Proof.
  induction l as [|x l IH]; intros l' H; [constructor|].
  destruct l' as [|y l']; [discriminate|]. simpl in H.
  injection H as Hx Hl. constructor; [exact Hx|exact (IH l' Hl)].
Qed.

(** A run that starts a session is its loop, followed by [Exit]. *)
Lemma performInteractions_inv env t0 todo out o :
  DryRun runCtx = false ->
  document env = Some todo ->
  started env = Some out ->
  performInteractions classify DescribeFull runCtx ctx sched env t0 inputfile = Some o ->
  exists st rest,
    loop 0 (initial inputfile t0 out) todo = Some (st, rest) /\
    o = mkOutcome (inl (suite st)) (visited st ++ rest) (Some (Exit (session st)))
          (returnCodes st) (printed st) (now st).
Proof.
  intros Hdry Hdoc Hout. unfold performInteractions. rewrite Hdoc, Hdry, Hout.
  fold (initial inputfile t0 out).
  destruct (loop 0 (initial inputfile t0 out) todo) as [[st rest]|]; [|discriminate].
  intros [= <-]. eauto.
Qed.

(** *** The report of a run *)

(** A run goes through a front part of the document, in order, and leaves
    the other interactions as they are.  The suite it returns has the name
    of the input file and one test case for each interaction gone through,
    named by its command and classed by the input file (dots replaced or
    not); and no interaction is lost: as many are returned as the document
    has, those not gone through at the end and as they were. *)
Theorem run_accounts env t0 todo out o :
  DryRun runCtx = false ->
  document env = Some todo ->
  started env = Some out ->
  performInteractions classify DescribeFull runCtx ctx sched env t0 inputfile = Some o ->
  exists done rest s,
    todo = done ++ rest /\
    returned o = inl s /\
    SuiteName s = inputfile /\
    TestCount s = length done /\
    map Name (TestCases s) = map Cmd done /\
    Forall (fun tc => Classname tc = class_name runCtx inputfile) (TestCases s) /\
    length (interactions o) = length todo /\
    drop (length done) (interactions o) = rest.
Proof.
  intros Hdry Hdoc Hout Hrun.
  destruct (performInteractions_inv _ _ _ _ _ Hdry Hdoc Hout Hrun) as (st & rest & Hloop & ->).
  apply interaction_loop_accounts in Hloop
    as (done & -> & HN & HC & HT & HS & HV & _).
  simpl in *. exists done, rest, (suite st).
  split_and!; try reflexivity; try assumption.
  - eapply map_const_Forall. exact HC.
  - rewrite !length_app. f_equal.
    rewrite <- (length_map Cmd (visited st)), HV, length_map. reflexivity.
  - assert (Hlen : length (visited st) = length done).
    { rewrite <- (length_map Cmd (visited st)), HV, length_map. reflexivity. }
    rewrite <- Hlen. apply drop_app_length.
Qed.

(** *** What a run writes to its shell *)

(** The input of the shell over a whole run is the begin statement and the
    command statement of each interaction gone through, in order, and
    then [exit]: the session of a run is always asked to exit and never
    killed, however the run ended. *)
Theorem run_protocol env t0 todo out o :
  DryRun runCtx = false ->
  document env = Some todo ->
  started env = Some out ->
  performInteractions classify DescribeFull runCtx ctx sched env t0 inputfile = Some o ->
  exists done rest sh,
    todo = done ++ rest /\
    TestCount (suite_of o) = length done /\
    final_session o = Some sh /\
    stdin sh = framed done ++ ["exit" +:+ nl] /\
    cmd sh = ExitRequested.
Proof.
  intros Hdry Hdoc Hout Hrun.
  destruct (performInteractions_inv _ _ _ _ _ Hdry Hdoc Hout Hrun) as (st & rest & Hloop & ->).
  apply interaction_loop_accounts in Hloop
    as (done & -> & _ & _ & HT & _ & _ & HI & _).
  simpl in *. exists done, rest, (Exit (session st)).
  split_and!; try reflexivity; try assumption.
  simpl. rewrite HI. reflexivity.
Qed.

(** *** Return codes *)

Lemma interaction_loop_codes (todo : list Interaction) :
  forall index st st' rest,
    loop index st todo = Some (st', rest) ->
    (count returnError (returnCodes st') + Errors (suite st) =
     count returnError (returnCodes st) + Errors (suite st'))%nat /\
    (count returnFailure (returnCodes st') + Failures (suite st) =
     count returnFailure (returnCodes st) + Failures (suite st'))%nat /\
    (Forall (fun c => c = returnError \/ c = returnFailure) (returnCodes st) ->
     Forall (fun c => c = returnError \/ c = returnFailure) (returnCodes st')).
Proof.
  assert (Hturn : forall st t i i' sh e,
    let st1 := recorded st t (mkTestCase EmptyString (Cmd i) None None) i' sh e in
    (count returnError (returnCodes st1) + Errors (suite st) =
     count returnError (returnCodes st) + Errors (suite st1))%nat /\
    (count returnFailure (returnCodes st1) + Failures (suite st) =
     count returnFailure (returnCodes st) + Failures (suite st1))%nat /\
    (Forall (fun c => c = returnError \/ c = returnFailure) (returnCodes st) ->
     Forall (fun c => c = returnError \/ c = returnFailure) (returnCodes st1))).
  { intros st t i i' sh e st1.
    destruct (recorded_facts st t i i' sh e)
      as (_ & _ & _ & _ & _ & _ & tc & _ & _ & _ & _ & _ & HE & HF & HR).
    fold st1 in HE, HF, HR. rewrite HE, HF, HR. unfold count.
    rewrite !filter_app, !length_app.
    destruct e, (HasFailure i'); simpl; (split_and!; [lia|lia|]);
      intros H; rewrite ?app_nil_r; repeat (apply Forall_app; split); auto;
      repeat constructor; auto. }
  apply (interaction_loop_turns
           (fun index st todo st' rest =>
              (count returnError (returnCodes st') + Errors (suite st) =
               count returnError (returnCodes st) + Errors (suite st'))%nat /\
              (count returnFailure (returnCodes st') + Failures (suite st) =
               count returnFailure (returnCodes st) + Failures (suite st'))%nat /\
              (Forall (fun c => c = returnError \/ c = returnFailure) (returnCodes st) ->
               Forall (fun c => c = returnError \/ c = returnFailure) (returnCodes st')))).
  - intros index st. simpl. auto.
  - intros index st i todo' _. simpl. auto.
  - intros index st i todo' t tc i' sh' e _ Hcase _.
    apply performTestCase_inv in Hcase as (-> & _). apply Hturn.
  - intros index st i todo' t tc i' sh' e st' rest _ Hcase _ _ (IH1 & IH2 & IH3).
    apply performTestCase_inv in Hcase as (-> & _).
    destruct (Hturn st t i i' sh' e) as (H1 & H2 & H3).
    split_and!; [lia|lia|auto].
Qed.

(** The return codes a run registers agree with the suite it returns:
    [returnError] is registered once for each error counted, [returnFailure]
    once for each failure counted, and nothing else is registered. *)
Theorem run_return_codes env t0 todo out o :
  DryRun runCtx = false ->
  document env = Some todo ->
  started env = Some out ->
  performInteractions classify DescribeFull runCtx ctx sched env t0 inputfile = Some o ->
  count returnError (registered o) = ErrorCount (suite_of o) /\
  count returnFailure (registered o) = FailureCount (suite_of o) /\
  Forall (fun c => c = returnError \/ c = returnFailure) (registered o).
Proof.
  intros Hdry Hdoc Hout Hrun.
  destruct (performInteractions_inv _ _ _ _ _ Hdry Hdoc Hout Hrun) as (st & rest & Hloop & ->).
  apply interaction_loop_codes in Hloop as (H1 & H2 & H3). simpl in *.
  unfold suite_of, ErrorCount, FailureCount. simpl.
  split_and!; [lia|lia|apply H3; constructor].
Qed.

(** *** The conditions that end a run *)

Lemma stops_false_not_stopping i' e tc :
  stops runCtx i' e = false ->
  (Failure tc ≠ None <-> HasFailure i' = true) ->
  (forall m, Error tc = Some m -> e = Some (Contents m)) ->
  ~ stopping runCtx tc.
Proof.
  unfold stops. intros Hs HF HE.
  apply orb_false_iff in Hs as [Hs Hfail]. apply orb_false_iff in Hs as [Hc Ht].
  apply bool_decide_eq_false in Hc, Ht.
  intros [(m & Hm & [Hx|Hx])|[Hfs Hf]].
  - apply HE in Hm. rewrite Hx in Hm. contradiction.
  - apply HE in Hm. rewrite Hx in Hm. contradiction.
  - apply HF in Hf. rewrite Hf, Hfs in Hfail. discriminate.
Qed.

Lemma interaction_loop_stopping (todo : list Interaction) :
  forall index st st' rest,
    loop index st todo = Some (st', rest) ->
    exists new,
      TestCases (suite st') = TestCases (suite st) ++ new /\
      forall before tc after,
        new = before ++ tc :: after -> after ≠ [] -> ~ stopping runCtx tc.
Proof.
  apply (interaction_loop_turns
           (fun index st todo st' rest =>
              exists new,
                TestCases (suite st') = TestCases (suite st) ++ new /\
                forall before tc after,
                  new = before ++ tc :: after -> after ≠ [] -> ~ stopping runCtx tc)).
  - intros index st. exists []. simpl. rewrite app_nil_r. split; [reflexivity|].
    intros [|? ?] tc after H; discriminate H.
  - intros index st i todo' _. exists []. simpl. rewrite app_nil_r. split; [reflexivity|].
    intros [|? ?] tc after H; discriminate H.
  - intros index st i todo' t tc i' sh' e _ Hcase _.
    apply performTestCase_inv in Hcase as (-> & _).
    destruct (recorded_facts st t i i' sh' e)
      as (_ & _ & _ & _ & _ & _ & tc & Hcases & _).
    exists [tc]. cbn [print_summary suite]. split; [exact Hcases|].
    intros [|b [|b' before]] tc' after H Hafter; inversion H; subst; congruence.
  - intros index st i todo' t tc i' sh' e st' rest _ Hcase Hstop _ (new & Hnew & IH).
    apply performTestCase_inv in Hcase as (-> & _).
    destruct (recorded_facts st t i i' sh' e)
      as (_ & _ & _ & _ & _ & _ & tc & Hcases & _ & _ & HF & HE & _).
    rewrite Hcases, <- app_assoc in Hnew. exists ([tc] ++ new). split; [exact Hnew|].
    intros [|b before] tc' after H Hafter; inversion H; subst.
    + eapply stops_false_not_stopping; eauto.
    + eapply IH; eauto.
Qed.

(** A test case that records a timeout or a cancellation, or, when the
    run is to stop on the first failure, a failure, is the last test case
    of its suite: the loop attempts nothing after it. *)
Theorem run_stops_at_last env t0 todo out o before tc after :
  DryRun runCtx = false ->
  document env = Some todo ->
  started env = Some out ->
  performInteractions classify DescribeFull runCtx ctx sched env t0 inputfile = Some o ->
  TestCases (suite_of o) = before ++ tc :: after ->
  stopping runCtx tc ->
  after = [].
Proof.
  intros Hdry Hdoc Hout Hrun Hcases Hstopping.
  destruct (performInteractions_inv _ _ _ _ _ Hdry Hdoc Hout Hrun) as (st & rest & Hloop & ->).
  apply interaction_loop_stopping in Hloop as (new & Hnew & Hlast).
  simpl in Hnew, Hcases. subst new.
  destruct after as [|a after]; [reflexivity|].
  destruct (Hlast _ _ _ Hcases ltac:(discriminate) Hstopping).
Qed.

(** *** The summary line *)

(** The loop prints one summary line, with the counts of the suite as it
    leaves it.  The line is marked as that of a cancelled run only when the
    context was done at a check in front of an interaction, which then
    remains unattempted with those after it. *)
Theorem interaction_loop_summary (todo : list Interaction) (index : nat)
    (st st' : State) (rest : list Interaction) :
  loop index st todo = Some (st', rest) ->
  exists c,
    printed st' =
      printed st ++
      [mkSummary c (TestCount (suite st')) (SuccessCount (suite st'))
         (FailureCount (suite st')) (ErrorCount (suite st'))] /\
    (c = true -> Done ctx (now st') = true /\ rest ≠ []).
Proof.
  revert todo index st st' rest.
  apply (interaction_loop_turns
           (fun index st todo st' rest =>
              exists c,
                printed st' =
                  printed st ++
                  [mkSummary c (TestCount (suite st')) (SuccessCount (suite st'))
                     (FailureCount (suite st')) (ErrorCount (suite st'))] /\
                (c = true -> Done ctx (now st') = true /\ rest ≠ []))).
  - intros index st. exists false. split; [reflexivity|discriminate].
  - intros index st i todo Hdone. exists true. split; [reflexivity|].
    intros _. split; [exact Hdone|discriminate].
  - intros index st i todo t tc i' sh' e _ _ _. exists false.
    split; [reflexivity|discriminate].
  - intros index st i todo t tc i' sh' e st' rest _ _ _ _ (c & Hprinted & Hc).
    exists c. split; [exact Hprinted|exact Hc].
Qed.

(** *** Runs that nothing cuts short *)

Lemma interaction_loop_completes (todo : list Interaction) :
  Timeout runCtx <= 0 ->
  doneAt ctx = None ->
  FailureStops runCtx = false ->
  forall index st st' rest,
    loop index st todo = Some (st', rest) -> rest = [].
Proof.
  intros Htimeout Hctx Hfs.
  apply (interaction_loop_turns (fun index st todo st' rest => rest = [])).
  - reflexivity.
  - intros index st i todo' Hdone. unfold Done in Hdone. rewrite Hctx in Hdone.
    discriminate.
  - intros index st i todo' t tc i' sh' e _ Hcase Hstop. exfalso.
    apply performTestCase_inv in Hcase as (_ & out & code & Hexec & _).
    unfold stops in Hstop. rewrite Hfs, andb_false_r, orb_false_r in Hstop.
    apply ExecuteCommand_inv in Hexec.
    destruct Hexec as [(d & r & rest0 & Hs & _ & _ & Hres)
                      |[(Hpos & _)|(c0 & Hc0 & _)]]; [|lia|congruence].
    inversion Hres as [[Ho Hc He]]. subst e.
    destruct (err r) as [x|] eqn:Herr; [|discriminate Hstop].
    destruct (scan_loop_error _ _ _ _ _ _ _ _ Hs Herr) as (_ & _ & token & ->).
    discriminate Hstop.
  - auto.
Qed.

(** Without a timeout, under a context that is never cancelled and without
    the option to stop on the first failure, a run that returns has gone
    through every interaction of the document, whatever errors and
    failures it met: the suite has one test case for each. *)
Theorem run_completes env t0 todo out o :
  DryRun runCtx = false ->
  document env = Some todo ->
  started env = Some out ->
  performInteractions classify DescribeFull runCtx ctx sched env t0 inputfile = Some o ->
  Timeout runCtx <= 0 ->
  doneAt ctx = None ->
  FailureStops runCtx = false ->
  map Name (TestCases (suite_of o)) = map Cmd todo /\
  TestCount (suite_of o) = length todo /\
  length (interactions o) = length todo.
Proof.
  intros Hdry Hdoc Hout Hrun Htimeout Hctx Hfs.
  destruct (performInteractions_inv _ _ _ _ _ Hdry Hdoc Hout Hrun) as (st & rest & Hloop & ->).
  pose proof (interaction_loop_completes todo Htimeout Hctx Hfs _ _ _ _ Hloop) as ->.
  apply interaction_loop_accounts in Hloop
    as (done & -> & HN & _ & HT & _ & HV & _).
  simpl in *. unfold suite_of, TestCount. simpl. rewrite !app_nil_r.
  split_and!; [exact HN|exact HT|].
  rewrite <- (length_map Cmd (visited st)), HV, length_map. reflexivity.
Qed.

End Coordinator.

(** *** Instances on the example runs *)

Lemma run_accounts_witness :
  exists o,
    garbled_run = Some o /\
    exists done rest s,
      garbled_document = done ++ rest /\
      returned o = inl s /\
      SuiteName s = "README.md" /\
      TestCount s = length done /\
      map Name (TestCases s) = map Cmd done /\
      Forall (fun tc => Classname tc = "README.md") (TestCases s) /\
      length (interactions o) = length garbled_document /\
      drop (length done) (interactions o) = rest.
Proof.
  eexists. split; [vm_compute; reflexivity|].
  apply (run_accounts by_output Cmd (mkRunContext false false false 0) Background
           first_ready "README.md" (mkEnv (Some garbled_document) (Some garbled_answer)) 0
           garbled_document garbled_answer);
    [reflexivity|reflexivity|reflexivity|vm_compute; reflexivity].
Defined.

Lemma run_protocol_witness :
  exists o,
    slow_run by_output Cmd first_ready = Some o /\
    exists done rest sh,
      slow_document = done ++ rest /\
      TestCount (suite_of o) = length done /\
      final_session o = Some sh /\
      stdin sh = framed done ++ ["exit" +:+ nl] /\
      cmd sh = ExitRequested.
Proof.
  eexists. split; [vm_compute; reflexivity|].
  apply (run_protocol by_output Cmd (mkRunContext false false false 100000000) Background
           first_ready "README.md" (mkEnv (Some slow_document) (Some Blocked)) 0
           slow_document Blocked);
    [reflexivity|reflexivity|reflexivity|vm_compute; reflexivity].
Defined.

Lemma run_return_codes_witness :
  exists o,
    garbled_run = Some o /\
    count returnError (registered o) = ErrorCount (suite_of o) /\
    count returnFailure (registered o) = FailureCount (suite_of o) /\
    Forall (fun c => c = returnError \/ c = returnFailure) (registered o).
Proof.
  eexists. split; [vm_compute; reflexivity|].
  apply (run_return_codes by_output Cmd (mkRunContext false false false 0) Background
           first_ready "README.md" (mkEnv (Some garbled_document) (Some garbled_answer)) 0
           garbled_document garbled_answer);
    [reflexivity|reflexivity|reflexivity|vm_compute; reflexivity].
Defined.

Lemma run_stops_at_last_witness :
  exists o,
    slow_run by_output Cmd first_ready = Some o /\
    exists tc,
      TestCases (suite_of o) = [] ++ tc :: [] /\
      stopping (mkRunContext false false false 100000000) tc /\
      @nil JUnitTestCase = [].
Proof.
  eexists. split; [vm_compute; reflexivity|].
  eexists. split; [reflexivity|].
  assert (Hstopping :
    stopping (mkRunContext false false false 100000000)
      (mkTestCase "README.md" "sleep 10" None
         (Some (mkMessage "ERROR" "ERROR (result not evaluated)" ErrTimeout)))).
  { left. eexists. split; [reflexivity|]. left. reflexivity. }
  split; [exact Hstopping|].
  eapply (run_stops_at_last by_output Cmd (mkRunContext false false false 100000000)
            Background first_ready "README.md" (mkEnv (Some slow_document) (Some Blocked)) 0
            slow_document Blocked _ []);
    [reflexivity|reflexivity|reflexivity|vm_compute; reflexivity|reflexivity|exact Hstopping].
Defined.

Lemma interaction_loop_summary_witness :
  exists st' rest,
    interaction_loop by_output Cmd (mkRunContext false false false 0) Background
      first_ready "README.md" 0 garbled_start garbled_document = Some (st', rest) /\
    exists c,
      printed st' =
        printed garbled_start ++
        [mkSummary c (TestCount (suite st')) (SuccessCount (suite st'))
           (FailureCount (suite st')) (ErrorCount (suite st'))] /\
      (c = true -> Done Background (now st') = true /\ rest ≠ []).
Proof.
  eexists _, _. split; [vm_compute; reflexivity|].
  apply (interaction_loop_summary by_output Cmd (mkRunContext false false false 0)
           Background first_ready "README.md" garbled_document 0 garbled_start).
  vm_compute. reflexivity.
Defined.

Lemma run_completes_witness :
  exists o,
    garbled_run = Some o /\
    map Name (TestCases (suite_of o)) = map Cmd garbled_document /\
    TestCount (suite_of o) = length garbled_document /\
    length (interactions o) = length garbled_document.
Proof.
  eexists. split; [vm_compute; reflexivity|].
  apply (run_completes by_output Cmd (mkRunContext false false false 0) Background
           first_ready "README.md" (mkEnv (Some garbled_document) (Some garbled_answer)) 0
           garbled_document garbled_answer);
    [reflexivity|reflexivity|reflexivity|vm_compute; reflexivity|simpl; lia|reflexivity
    |reflexivity].
Defined.

End run_more.
